(** * Vision_Voice: the audio recorder

    A shallow embedding of [src/utils/audio_recorder.py] (class
    [AudioRecorder]) and the properties of its capture loop, noise
    calibration, speech detector and life cycle.

    Conventions of the embedding.
    - Python [float]s (wall-clock times, volumes, the threshold, the noise
      floor) are real numbers: rounding is not modelled.
    - Python [int]s are [Z]; [bytes] are [list Byte.byte].
    - An attribute holding an object or [None] is an [option].
    - Code that can raise runs in a state-and-exception monad: the state
      keeps every mutation made before the exception, as in Python.
    - What the outside world answers (the audio device, the file system,
      the clock, scipy's filter) is an explicit input of each operation. *)

From Stdlib Require Import Reals Lra ZArith List Lia Bool.
From stdpp Require Import gmap strings pretty.

(** ** Exceptions and the monad *)

(** The exception classes the handlers of the module can tell apart, and
    the ones the code itself can provoke. *)
Inductive exn : Type :=
  | IOError            (* OSError: device and file-system failures *)
  | ValueError         (* numpy / pyaudio argument errors *)
  | AttributeError     (* a method called on None *)
  | UnboundLocalError  (* a local read before it was assigned *)
  | WaveError          (* wave.Error *)
  | RuntimeError.      (* any other Exception *)

Definition is_IOError (e : exn) : bool :=
  match e with IOError => true | _ => false end.

Definition Exc (A : Type) : Type := (exn + A)%type.

Section Monad.
Context {St : Type}.

Definition M (A : Type) : Type := St -> Exc A * St.

Definition ret {A} (a : A) : M A := fun s => (inr a, s).

Definition raise {A} (e : exn) : M A := fun s => (inl e, s).

Definition bind {A B} (m : M A) (k : A -> M B) : M B :=
  fun s => match m s with
           | (inr a, s') => k a s'
           | (inl e, s') => (inl e, s')
           end.

Definition gets {A} (f : St -> A) : M A := fun s => (inr (f s), s).

Definition modify (f : St -> St) : M unit := fun s => (inr tt, f s).

(** [try: body except Exception as e: handler e] *)
Definition try_except {A} (body : M A) (handler : exn -> M A) : M A :=
  fun s => match body s with
           | (inr a, s') => (inr a, s')
           | (inl e, s') => handler e s'
           end.

(** [if c: body] *)
Definition when (c : bool) (body : M unit) : M unit :=
  if c then body else ret tt.

(** Lifting a pure fallible computation. *)
Definition lift {A} (r : Exc A) : M A := fun s => (r, s).
End Monad.

Arguments M : clear implicits.

Notation "'let!' x ':=' m 'in' k" := (bind m (fun x => k))
  (at level 10, x name, m at level 100, k at level 200, only parsing).
Notation "m ';>' k" := (bind m (fun _ => k))
  (at level 90, right associativity, only parsing).

(** ** numpy on one block *)

Definition bytes : Type := list Byte.byte.

(** [np.frombuffer(data, dtype=np.int16)]: little-endian two's complement,
    two bytes per sample; a buffer of odd size is refused. *)
Definition int16_of_bytes (lo hi : Byte.byte) : Z :=
  let u := (Z.of_N (Byte.to_N lo) + 256 * Z.of_N (Byte.to_N hi))%Z in
  if (u <? 32768)%Z then u else (u - 65536)%Z.

Fixpoint np_frombuffer (data : bytes) : Exc (list Z) :=
  match data with
  | [] => inr []
  | [_] => inl ValueError
  | lo :: hi :: rest =>
      match np_frombuffer rest with
      | inr xs => inr (int16_of_bytes lo hi :: xs)
      | inl e => inl e
      end
  end.

(** [np.abs] on int16 wraps around at the most negative value. *)
Definition np_abs16 (x : Z) : Z :=
  if (x =? -32768)%Z then (-32768)%Z else Z.abs x.

(** [np.max]: an empty array has no maximum. *)
Definition np_max (xs : list Z) : Exc Z :=
  match xs with
  | [] => inl ValueError
  | x :: rest => inr (fold_left Z.max rest x)
  end.

(** [np.mean] and [np.std] (population standard deviation) of a non-empty
    list of numbers. *)
Definition Rsum (xs : list R) : R := fold_right Rplus 0%R xs.

Definition np_mean (xs : list R) : R := (Rsum xs / INR (length xs))%R.

Definition np_std (xs : list R) : R :=
  let mu := np_mean xs in
  sqrt (np_mean (map (fun x => (Rabs (x - mu) * Rabs (x - mu))%R) xs)).

(** Python's [max(a, b)]: [b] when [b > a], else [a]. *)
Definition py_max (a b : R) : R := if Rgt_dec b a then b else a.

(** Lines 116-118 of [_butter_bandpass]: the cut-offs handed to scipy's
    [butter], as fractions of the Nyquist frequency. *)
Definition normalized_band (lowcut highcut fs : R) : R * R :=
  let nyq := (0.5 * fs)%R in
  ((lowcut / nyq)%R, (highcut / nyq)%R).

(** ** The recorder object *)

Inductive PyAudio : Type := PyAudioObject.
Inductive Stream : Type := StreamObject.
Inductive Thread : Type := calibrate_noise_thread | listen_and_record_thread.

Global Instance Thread_eq_dec : EqDecision Thread.
Proof. solve_decision. Defined.

(** The attributes of [AudioRecorder], as [__init__] creates them, and
    [listening_thread], which [_calibrate_noise] adds. *)
Record AudioRecorder : Type := mkRecorder {
  threshold : R;
  chunk_size : Z;
  format : Z;
  channels : Z;
  rate : Z;
  recording_interval : R;
  p : option PyAudio;
  stream : option Stream;
  frames : list bytes;
  is_recording : bool;
  audio_queue : list string;          (* FIFO: put at the back *)
  running : bool;
  noise_floor : R;
  noise_calibration_samples : list Z; (* np.int16 peaks *)
  calibration_period : R;
  is_calibrated : bool;
  last_recording_time : R;
  speech_frames_threshold : Z;
  consecutive_speech_frames : Z;
  listening_thread : option Thread
}.

Definition paInt16 : Z := 8.

(** [AudioRecorder(threshold, chunk_size, format, channels, rate,
    recording_interval)] *)
Definition init (threshold0 : R) (chunk_size0 format0 channels0 rate0 : Z)
    (recording_interval0 : R) : AudioRecorder :=
  {| threshold := threshold0;
     chunk_size := chunk_size0;
     format := format0;
     channels := channels0;
     rate := rate0;
     recording_interval := recording_interval0;
     p := None;
     stream := None;
     frames := [];
     is_recording := false;
     audio_queue := [];
     running := true;
     noise_floor := 0;
     noise_calibration_samples := [];
     calibration_period := 3;
     is_calibrated := false;
     last_recording_time := 0;
     speech_frames_threshold := 3;
     consecutive_speech_frames := 0;
     listening_thread := None |}.

(** The recorder with every default: [AudioRecorder()]. *)
Definition default_recorder : AudioRecorder :=
  init 6000 1024 paInt16 1 44100 10.

(** Attribute assignments. *)
Definition set_threshold (v : R) (s : AudioRecorder) : AudioRecorder :=
  mkRecorder v (chunk_size s) (format s) (channels s) (rate s)
    (recording_interval s) (p s) (stream s) (frames s) (is_recording s)
    (audio_queue s) (running s) (noise_floor s) (noise_calibration_samples s)
    (calibration_period s) (is_calibrated s) (last_recording_time s)
    (speech_frames_threshold s) (consecutive_speech_frames s)
    (listening_thread s).

Definition set_p (v : option PyAudio) (s : AudioRecorder) : AudioRecorder :=
  mkRecorder (threshold s) (chunk_size s) (format s) (channels s) (rate s)
    (recording_interval s) v (stream s) (frames s) (is_recording s)
    (audio_queue s) (running s) (noise_floor s) (noise_calibration_samples s)
    (calibration_period s) (is_calibrated s) (last_recording_time s)
    (speech_frames_threshold s) (consecutive_speech_frames s)
    (listening_thread s).

Definition set_stream (v : option Stream) (s : AudioRecorder) : AudioRecorder :=
  mkRecorder (threshold s) (chunk_size s) (format s) (channels s) (rate s)
    (recording_interval s) (p s) v (frames s) (is_recording s)
    (audio_queue s) (running s) (noise_floor s) (noise_calibration_samples s)
    (calibration_period s) (is_calibrated s) (last_recording_time s)
    (speech_frames_threshold s) (consecutive_speech_frames s)
    (listening_thread s).

Definition set_audio_queue (v : list string) (s : AudioRecorder) : AudioRecorder :=
  mkRecorder (threshold s) (chunk_size s) (format s) (channels s) (rate s)
    (recording_interval s) (p s) (stream s) (frames s) (is_recording s)
    v (running s) (noise_floor s) (noise_calibration_samples s)
    (calibration_period s) (is_calibrated s) (last_recording_time s)
    (speech_frames_threshold s) (consecutive_speech_frames s)
    (listening_thread s).

Definition set_running (v : bool) (s : AudioRecorder) : AudioRecorder :=
  mkRecorder (threshold s) (chunk_size s) (format s) (channels s) (rate s)
    (recording_interval s) (p s) (stream s) (frames s) (is_recording s)
    (audio_queue s) v (noise_floor s) (noise_calibration_samples s)
    (calibration_period s) (is_calibrated s) (last_recording_time s)
    (speech_frames_threshold s) (consecutive_speech_frames s)
    (listening_thread s).

Definition set_noise_floor (v : R) (s : AudioRecorder) : AudioRecorder :=
  mkRecorder (threshold s) (chunk_size s) (format s) (channels s) (rate s)
    (recording_interval s) (p s) (stream s) (frames s) (is_recording s)
    (audio_queue s) (running s) v (noise_calibration_samples s)
    (calibration_period s) (is_calibrated s) (last_recording_time s)
    (speech_frames_threshold s) (consecutive_speech_frames s)
    (listening_thread s).

Definition set_noise_calibration_samples (v : list Z) (s : AudioRecorder)
    : AudioRecorder :=
  mkRecorder (threshold s) (chunk_size s) (format s) (channels s) (rate s)
    (recording_interval s) (p s) (stream s) (frames s) (is_recording s)
    (audio_queue s) (running s) (noise_floor s) v
    (calibration_period s) (is_calibrated s) (last_recording_time s)
    (speech_frames_threshold s) (consecutive_speech_frames s)
    (listening_thread s).

Definition set_is_calibrated (v : bool) (s : AudioRecorder) : AudioRecorder :=
  mkRecorder (threshold s) (chunk_size s) (format s) (channels s) (rate s)
    (recording_interval s) (p s) (stream s) (frames s) (is_recording s)
    (audio_queue s) (running s) (noise_floor s) (noise_calibration_samples s)
    (calibration_period s) v (last_recording_time s)
    (speech_frames_threshold s) (consecutive_speech_frames s)
    (listening_thread s).

Definition set_last_recording_time (v : R) (s : AudioRecorder) : AudioRecorder :=
  mkRecorder (threshold s) (chunk_size s) (format s) (channels s) (rate s)
    (recording_interval s) (p s) (stream s) (frames s) (is_recording s)
    (audio_queue s) (running s) (noise_floor s) (noise_calibration_samples s)
    (calibration_period s) (is_calibrated s) v
    (speech_frames_threshold s) (consecutive_speech_frames s)
    (listening_thread s).

Definition set_consecutive_speech_frames (v : Z) (s : AudioRecorder)
    : AudioRecorder :=
  mkRecorder (threshold s) (chunk_size s) (format s) (channels s) (rate s)
    (recording_interval s) (p s) (stream s) (frames s) (is_recording s)
    (audio_queue s) (running s) (noise_floor s) (noise_calibration_samples s)
    (calibration_period s) (is_calibrated s) (last_recording_time s)
    (speech_frames_threshold s) v
    (listening_thread s).

Definition set_listening_thread (v : option Thread) (s : AudioRecorder)
    : AudioRecorder :=
  mkRecorder (threshold s) (chunk_size s) (format s) (channels s) (rate s)
    (recording_interval s) (p s) (stream s) (frames s) (is_recording s)
    (audio_queue s) (running s) (noise_floor s) (noise_calibration_samples s)
    (calibration_period s) (is_calibrated s) (last_recording_time s)
    (speech_frames_threshold s) (consecutive_speech_frames s) v.

(** ** The speech detector

    Lines 172-177 of [_listen_and_record]: the check made on the filtered
    peak [volume] of one block.  The boolean is the "Speech detected"
    report of that block. *)
Definition speech_check (volume : R) (s : AudioRecorder) : AudioRecorder * bool :=
  if Rgt_dec volume (threshold s) then
    let s' := set_consecutive_speech_frames (consecutive_speech_frames s + 1) s in
    (s', (consecutive_speech_frames s' =? speech_frames_threshold s')%Z)
  else
    (set_consecutive_speech_frames 0 s, false).

(** The detector over a sequence of blocks, one report per block. *)
Fixpoint speech_run (volumes : list R) (s : AudioRecorder)
    : AudioRecorder * list bool :=
  match volumes with
  | [] => (s, [])
  | v :: rest =>
      let (s1, r) := speech_check v s in
      let (s2, rs) := speech_run rest s1 in
      (s2, r :: rs)
  end.

(** ** The outside world *)

(** Calls on the audio device that open, close or configure it. *)
Inductive DevCall : Type :=
  | call_PyAudio                        (* pyaudio.PyAudio() *)
  | call_get_default_input_device_info
  | call_open
  | call_start_stream
  | call_stop_stream
  | call_close
  | call_terminate.

Global Instance DevCall_eq_dec : EqDecision DevCall.
Proof. solve_decision. Defined.

(** A device decides, from the calls made so far (latest first), whether
    the next call raises. *)
Definition Device : Type := list DevCall -> DevCall -> option exn.

(** A .wav container as [wave.open(name, 'wb')] writes it. *)
Record WavFile : Type := mkWav {
  nchannels : Z;
  sampwidth : Z;
  framerate : Z;
  framedata : bytes
}.

(** Number of frames the header of the container announces
    ([Wave_write.writeframes]: [len(data) // (sampwidth * nchannels)]). *)
Definition nframes (f : WavFile) : Z :=
  (Z.of_nat (length (framedata f)) / (sampwidth f * nchannels f))%Z.

Inductive File : Type :=
  | EmptyFile                 (* a temporary file just created *)
  | WaveFile (f : WavFile).

(** What the file system does during one call of [_save_recording]. *)
Inductive FsOutcome : Type :=
  | TempFileFails               (* NamedTemporaryFile raises *)
  | WriteFails (name : string)  (* the file is created, writing it raises *)
  | WriteOk (name : string).    (* the file is created and written *)

(** What the stream answers in one iteration of a reading loop. *)
Inductive ReadOutcome : Type :=
  | NotActive                 (* stream.is_active() is False *)
  | ReadFails (e : exn)       (* is_active() or read() raises *)
  | ReadData (data : bytes).  (* read() returns a block *)

(** The recorder, the world around it, and the two locals of
    [_listen_and_record]. *)
Record World : Type := mkWorld {
  self : AudioRecorder;
  devlog : list DevCall;       (* device calls so far, latest first *)
  fs : gmap string File;       (* the temporary directory *)
  started : list Thread;       (* threads started so far, latest first *)
  temp_frames : list bytes;
  record_start_time : R
}.

Definition new_world (s : AudioRecorder) : World :=
  mkWorld s [] ∅ [] [] 0.

Definition upd_self (f : AudioRecorder -> AudioRecorder) (w : World) : World :=
  mkWorld (f (self w)) (devlog w) (fs w) (started w) (temp_frames w)
    (record_start_time w).

Definition upd_devlog (f : list DevCall -> list DevCall) (w : World) : World :=
  mkWorld (self w) (f (devlog w)) (fs w) (started w) (temp_frames w)
    (record_start_time w).

Definition upd_fs (f : gmap string File -> gmap string File) (w : World) : World :=
  mkWorld (self w) (devlog w) (f (fs w)) (started w) (temp_frames w)
    (record_start_time w).

Definition start_thread (t : Thread) (w : World) : World :=
  mkWorld (self w) (devlog w) (fs w) (t :: started w) (temp_frames w)
    (record_start_time w).

Definition set_temp_frames (v : list bytes) (w : World) : World :=
  mkWorld (self w) (devlog w) (fs w) (started w) v (record_start_time w).

Definition set_record_start_time (v : R) (w : World) : World :=
  mkWorld (self w) (devlog w) (fs w) (started w) (temp_frames w) v.

(** One call on the device: it is logged, and raises if the device says so. *)
Definition device_call (dev : Device) (c : DevCall) : M World unit :=
  fun w =>
    let w' := upd_devlog (cons c) w in
    match dev (devlog w) c with
    | Some e => (inl e, w')
    | None => (inr tt, w')
    end.

(** ** start_listening and stop *)

(** Starting a thread is taken to succeed. *)
Definition start_listening (dev : Device) : M World unit :=
  try_except
    (device_call dev call_PyAudio ;>
     modify (upd_self (set_p (Some PyAudioObject))) ;>
     device_call dev call_get_default_input_device_info ;>
     device_call dev call_open ;>
     modify (upd_self (set_stream (Some StreamObject))) ;>
     device_call dev call_start_stream ;>
     modify (start_thread calibrate_noise_thread))
    (fun _ =>
       let! ph := gets (fun w => p (self w)) in
       when (bool_decide (is_Some ph)) (device_call dev call_terminate)).

Definition stop (dev : Device) : M World unit :=
  modify (upd_self (set_running false)) ;>
  (let! st := gets (fun w => stream (self w)) in
   when (bool_decide (is_Some st))
     (try_except
        (device_call dev call_stop_stream ;> device_call dev call_close)
        (fun _ => ret tt))) ;>
  (let! ph := gets (fun w => p (self w)) in
   when (bool_decide (is_Some ph))
     (try_except (device_call dev call_terminate) (fun _ => ret tt))).

(** ** _save_recording *)

(** [PyAudio.get_sample_size(format)] *)
Definition get_sample_size (fmt : Z) : Exc Z :=
  if (fmt =? 1)%Z then inr 4%Z        (* paFloat32 *)
  else if (fmt =? 2)%Z then inr 4%Z   (* paInt32 *)
  else if (fmt =? 4)%Z then inr 3%Z   (* paInt24 *)
  else if (fmt =? 8)%Z then inr 2%Z   (* paInt16 *)
  else if (fmt =? 16)%Z then inr 1%Z  (* paInt8 *)
  else if (fmt =? 32)%Z then inr 1%Z  (* paUInt8 *)
  else inl ValueError.

(** The header [_save_recording] sets, with the checks of [wave]'s
    setters: at least one channel, a positive frame rate. *)
Definition wave_header (s : AudioRecorder) : Exc (Z * Z * Z) :=
  if (channels s <? 1)%Z then inl WaveError
  else match p s with
       | None => inl AttributeError
       | Some _ =>
           match get_sample_size (format s) with
           | inl e => inl e
           | inr width =>
               if (rate s <=? 0)%Z then inl WaveError
               else inr (channels s, width, rate s)
           end
       end.

Definition queue_put (name : string) (s : AudioRecorder) : AudioRecorder :=
  set_audio_queue (audio_queue s ++ [name]) s.

Definition _save_recording (o : FsOutcome) (frames0 : list bytes) : M World unit :=
  match o with
  | TempFileFails =>
      (* temp_file is never bound: the handler's temp_file.name raises *)
      try_except (raise IOError) (fun _ => raise UnboundLocalError)
  | WriteFails name | WriteOk name =>
      try_except
        (modify (upd_fs (insert name EmptyFile)) ;>
         let! s := gets self in
         let! hdr := lift (wave_header s) in
         (match o with WriteOk _ => ret tt | _ => raise IOError end) ;>
         modify (upd_fs (insert name
           (WaveFile (mkWav hdr.1.1 hdr.1.2 hdr.2 (concat frames0))))) ;>
         modify (upd_self (queue_put name)))
        (fun _ =>
           let! files := gets fs in
           when (bool_decide (is_Some (files !! name)))
             (modify (upd_fs (delete name))))
  end.

(** ** _calibrate_noise *)

Definition append_sample (volume : Z) (s : AudioRecorder) : AudioRecorder :=
  set_noise_calibration_samples (noise_calibration_samples s ++ [volume]) s.

(** The body of the sampling loop (lines 83-91). *)
Definition calibrate_iteration (r : ReadOutcome) : M World unit :=
  try_except
    (let! st := gets (fun w => stream (self w)) in
     match st, r with
     | Some _, ReadFails e => raise e
     | Some _, ReadData data =>
         let! audio_data := lift (np_frombuffer data) in
         let! volume := lift (np_max (map np_abs16 audio_data)) in
         modify (upd_self (append_sample volume))
     | _, _ => ret tt
     end)
    (fun _ => ret tt).

(** The sampling loop: the clock decides how many iterations run, and
    [iterations] lists what the stream answered in each of them. *)
Fixpoint calibration_loop (iterations : list ReadOutcome) : M World unit :=
  match iterations with
  | [] => ret tt
  | r :: rest => calibrate_iteration r ;> calibration_loop rest
  end.

(** Lines 94-105: the noise floor and the adjusted threshold. *)
Definition calibrate_profile (s : AudioRecorder) : AudioRecorder :=
  match noise_calibration_samples s with
  | [] => s
  | _ =>
      let samples := map IZR (noise_calibration_samples s) in
      let mean_noise := np_mean samples in
      let std_noise := np_std samples in
      let s1 := set_noise_floor (mean_noise + 2 * std_noise) s in
      set_threshold (py_max (threshold s1) (noise_floor s1 * 1.5)) s1
  end.

(** Lines 109-112: the listening thread is created and started. *)
Definition start_listening_thread (w : World) : World :=
  start_thread listen_and_record_thread
    (upd_self (set_listening_thread (Some listen_and_record_thread)) w).

Definition _calibrate_noise (iterations : list ReadOutcome) : M World unit :=
  calibration_loop iterations ;>
  modify (upd_self calibrate_profile) ;>
  modify (upd_self (set_is_calibrated true)) ;>
  modify start_listening_thread.

(** ** _butter_bandpass and _filter_audio

    [butter] and [filtfilt] are scipy.signal's.  They are modelled from
    their documented behaviour: when they raise and how many values they
    return is written out; the floating-point values themselves (the
    coefficients of a design, the samples of a filtered block) are an
    input of the model. *)
Record Scipy : Type := mkScipy {
  numerator : Z -> R -> R -> nat -> R;     (* b[k] of butter(N, [low, high]) *)
  denominator : Z -> R -> R -> nat -> R;   (* a[k] of butter(N, [low, high]) *)
  filtered : list R -> list R -> list R -> nat -> R  (* filtfilt(b, a, x)[k] *)
}.

(** [butter(N, [low, high], btype='band')], digital: the order is a
    non-negative integer, the critical frequencies must be increasing and
    satisfy [0 < Wn < 1]; the band filter of order [N] has [2 * N + 1]
    numerator and as many denominator coefficients. *)
Definition butter (sp : Scipy) (N : Z) (low high : R) : Exc (list R * list R) :=
  if (N <? 0)%Z then inl ValueError
  else if Rlt_dec 0 low then
    if Rlt_dec low high then
      if Rlt_dec high 1 then
        let ks := seq 0 (Z.to_nat (2 * N + 1)) in
        inr (map (numerator sp N low high) ks,
             map (denominator sp N low high) ks)
      else inl ValueError
    else inl ValueError
  else inl ValueError.

(** [filtfilt(b, a, x)] with its default padding: the signal is extended
    by [padlen = 3 * max(len(a), len(b))] samples at both ends, and must
    be longer than that; the result has the shape of [x]. *)
Definition padlen (b a : list R) : nat := 3 * Nat.max (length a) (length b).

Definition filtfilt (sp : Scipy) (b a x : list R) : Exc (list R) :=
  if (length x <=? padlen b a)%nat then inl ValueError
  else inr (map (filtered sp b a x) (seq 0 (length x))).

(** Lines 114-120.  Dividing by a zero Nyquist frequency raises
    ZeroDivisionError. *)
Definition _butter_bandpass (sp : Scipy) (lowcut highcut fs : R) (order : Z)
    : M World (list R * list R) :=
  if Req_dec_T (0.5 * fs) 0 then raise RuntimeError
  else
    let band := normalized_band lowcut highcut fs in
    lift (butter sp order band.1 band.2).

(** Lines 122-126: the design is made anew, with the default arguments of
    [_butter_bandpass], for every block. *)
Definition _filter_audio (sp : Scipy) (data : list Z) : M World (list R) :=
  let! ba := _butter_bandpass sp 300 3000 44100 5 in
  lift (filtfilt sp ba.1 ba.2 (map IZR data)).

(** ** _listen_and_record *)

(** What one iteration of the capture loop meets: the clock at its head,
    the file system if a segment is written, the stream, and the peak
    [np.max(np.abs(self._filter_audio(audio_data)))] of the filtered
    block, or the exception [_filter_audio] raises (as it does on a block
    of 33 samples or fewer). *)
Record Iteration : Type := mkIteration {
  now : R;
  save_outcome : FsOutcome;
  read_outcome : ReadOutcome;
  filtered_peak : Exc R
}.

(** Lines 137-140: what the thread does once calibration is over. *)
Definition listen_enter (t t' : R) (w : World) : World :=
  set_record_start_time t'
    (set_temp_frames [] (upd_self (set_last_recording_time t) w)).

(** Lines 144-157: the interval check, with the flush. *)
Definition interval_reached (current_time : R) (s : AudioRecorder) : bool :=
  if Rge_dec (current_time - last_recording_time s) (recording_interval s)
  then true else false.

Definition interval_check (current_time : R) (o : FsOutcome) : M World unit :=
  let! s := gets self in
  when (interval_reached current_time s)
    (let! buffered := gets temp_frames in
     when (0 <? length buffered)%nat (_save_recording o buffered) ;>
     modify (set_temp_frames []) ;>
     modify (upd_self (set_last_recording_time current_time)) ;>
     modify (set_record_start_time current_time)).

(** Lines 160-177: one block is read, buffered and checked for speech.
    The result tells whether "Speech detected" is reported. *)
Definition read_and_detect (r : ReadOutcome) (peak : Exc R) : M World bool :=
  let! st := gets (fun w => stream (self w)) in
  match st, r with
  | Some _, ReadFails e => raise e
  | Some _, ReadData data =>
      let! buffered := gets temp_frames in
      modify (set_temp_frames (buffered ++ [data])) ;>
      let! audio_data := lift (np_frombuffer data) in
      let! volume := lift peak in
      let! s := gets self in
      modify (upd_self (fun s => (speech_check volume s).1)) ;>
      ret (speech_check volume s).2
  | _, _ => ret false
  end.

(** The body of the [while self.running] loop: both handlers log, sleep
    and let the loop go on. *)
Definition iteration (it : Iteration) : M World bool :=
  try_except
    (interval_check (now it) (save_outcome it) ;>
     read_and_detect (read_outcome it) (filtered_peak it))
    (fun e => if is_IOError e then ret false else ret false).

(** The loop over the iterations the clock allows; it ends as soon as
    [running] is found false. *)
Fixpoint listen_loop (its : list Iteration) : M World (list bool) :=
  match its with
  | [] => ret []
  | it :: rest =>
      let! go := gets (fun w => running (self w)) in
      if go then
        let! detected := iteration it in
        let! others := listen_loop rest in
        ret (detected :: others)
      else ret []
  end.

(** ** The threads of one recorder

    The caller calls [start_listening] once and may call [stop]; the
    calibration thread runs [_calibrate_noise]; the listening thread runs
    [_listen_and_record].  Each thread has a program point, and a thread
    runs only once it was started.  [Thread.start()] on line 112 is the
    last statement of [_calibrate_noise]: the listening thread exists from
    then on, and the return of the function is a later step of its own.
    The caller of the recorder ([process] in main.py) also takes handles
    out of [audio_queue] and removes segment files. *)
Inductive CalibrationPoint : Type :=
  | CalibrationIdle       (* not running yet *)
  | CalibrationSampling   (* in the loop of lines 82-91 *)
  | CalibrationProfiled   (* lines 94-105 done *)
  | CalibrationFlagged    (* line 107 done *)
  | CalibrationSpawned    (* lines 110-112 done: the listening thread runs *)
  | CalibrationReturned.  (* the function has returned *)

Inductive ListeningPoint : Type :=
  | ListeningIdle         (* not running yet *)
  | ListeningWaiting      (* in the loop of lines 133-134 *)
  | ListeningCapturing    (* in the loop of lines 142-186 *)
  | ListeningExited.

Record System : Type := mkSystem {
  world : World;
  start_called : bool;
  calibration : CalibrationPoint;
  listening : ListeningPoint
}.

Definition initial (s : AudioRecorder) : System :=
  mkSystem (new_world s) false CalibrationIdle ListeningIdle.

Inductive step (dev : Device) : System -> System -> Prop :=
  | step_start w c l :
      step dev (mkSystem w false c l)
               (mkSystem (start_listening dev w).2 true c l)
  | step_stop w b c l :
      step dev (mkSystem w b c l) (mkSystem (stop dev w).2 b c l)
  | step_calibration_begin w b l :
      In calibrate_noise_thread (started w) ->
      step dev (mkSystem w b CalibrationIdle l)
               (mkSystem w b CalibrationSampling l)
  | step_calibration_sample w b l r :
      step dev (mkSystem w b CalibrationSampling l)
               (mkSystem (calibrate_iteration r w).2 b CalibrationSampling l)
  | step_calibration_profile w b l :
      step dev (mkSystem w b CalibrationSampling l)
               (mkSystem (upd_self calibrate_profile w) b CalibrationProfiled l)
  | step_calibration_flag w b l :
      step dev (mkSystem w b CalibrationProfiled l)
               (mkSystem (upd_self (set_is_calibrated true) w) b
                         CalibrationFlagged l)
  | step_calibration_spawn w b l :
      step dev (mkSystem w b CalibrationFlagged l)
               (mkSystem (start_listening_thread w) b CalibrationSpawned l)
  | step_calibration_return w b l :
      step dev (mkSystem w b CalibrationSpawned l)
               (mkSystem w b CalibrationReturned l)
  | step_listening_begin w b c :
      In listen_and_record_thread (started w) ->
      step dev (mkSystem w b c ListeningIdle) (mkSystem w b c ListeningWaiting)
  | step_listening_wait w b c :
      is_calibrated (self w) = false ->
      step dev (mkSystem w b c ListeningWaiting) (mkSystem w b c ListeningWaiting)
  | step_listening_enter w b c t t' :
      is_calibrated (self w) = true ->
      step dev (mkSystem w b c ListeningWaiting)
               (mkSystem (listen_enter t t' w) b c ListeningCapturing)
  | step_listening_iteration w b c it :
      running (self w) = true ->
      step dev (mkSystem w b c ListeningCapturing)
               (mkSystem (iteration it w).2 b c ListeningCapturing)
  | step_listening_exit w b c :
      running (self w) = false ->
      step dev (mkSystem w b c ListeningCapturing)
               (mkSystem w b c ListeningExited)
  | step_queue_get w b c l name rest :
      (* main.py, lines 170-171: [audio_queue.get()] on a non-empty queue *)
      audio_queue (self w) = name :: rest ->
      step dev (mkSystem w b c l)
               (mkSystem (upd_self (set_audio_queue rest) w) b c l)
  | step_unlink w b c l name :
      (* main.py, lines 208-209: the segment file is removed if it exists *)
      step dev (mkSystem w b c l) (mkSystem (upd_fs (delete name) w) b c l).

(** The systems a run can reach from a fresh recorder. *)
Inductive reachable (dev : Device) (s0 : AudioRecorder) : System -> Prop :=
  | reachable_initial : reachable dev s0 (initial s0)
  | reachable_step x y :
      reachable dev s0 x -> step dev x y -> reachable dev s0 y.

(** ** Vocabulary of the properties *)

(** A block is above the threshold when its filtered peak exceeds it. *)
Definition above (s : AudioRecorder) (volume : R) : Prop :=
  (volume > threshold s)%R.

(** The consecutive-above-threshold count as the specification names it,
    read off the blocks alone: the number of blocks above [thr] at the
    front of a sequence, the number of such blocks a sequence ends with,
    and the count a detector shows after [volumes] when it showed [c]
    before them. *)
Fixpoint leading_above (thr : R) (volumes : list R) : nat :=
  match volumes with
  | v :: rest => if Rgt_dec v thr then S (leading_above thr rest) else 0%nat
  | [] => 0%nat
  end.

Definition trailing_above (thr : R) (volumes : list R) : nat :=
  leading_above thr (rev volumes).

Definition consecutive_count (thr : R) (c : Z) (volumes : list R) : Z :=
  let n := trailing_above thr volumes in
  if (n =? length volumes)%nat then (c + Z.of_nat n)%Z else Z.of_nat n.

(** Mean and standard deviation as the specification names them. *)
Definition mean (xs : list R) : R := (Rsum xs / INR (length xs))%R.

Definition stddev (xs : list R) : R :=
  sqrt (Rsum (map (fun x => ((x - mean xs) * (x - mean xs))%R) xs)
        / INR (length xs)).

(** Frames of [k] bytes held by a list of blocks, block by block. *)
Definition total_frames (k : Z) (blocks : list bytes) : Z :=
  fold_right Z.add 0%Z (map (fun b => (Z.of_nat (length b) / k)%Z) blocks).

(** How often a call was made on the device. *)
Definition count_calls (c : DevCall) (log : list DevCall) : nat :=
  length (List.filter (fun c' => bool_decide (c' = c)) log).

Definition calls (c : DevCall) (w : World) : nat := count_calls c (devlog w).

(** The number of calls a stored object receives: [n] if the attribute
    holds one, none if it is [None]. *)
Definition if_stored {A} (o : option A) (n : nat) : nat :=
  match o with Some _ => n | None => 0%nat end.

(** Whether the next call of [c] on the device returns. *)
Definition succeeds (dev : Device) (log : list DevCall) (c : DevCall) : nat :=
  match dev log c with Some _ => 0%nat | None => 1%nat end.

(** How often the device was asked to close the stream. *)
Definition closes (w : World) : nat :=
  length (List.filter (fun c => bool_decide (c = call_close)) (devlog w)).

Definition opens (w : World) : nat :=
  length (List.filter (fun c => bool_decide (c = call_open)) (devlog w)).

(** The noise profile of [s] is the one calibration derives from the
    samples of [s] and the settings of the fresh recorder [s0]. *)
Definition profile_from (s0 s : AudioRecorder) : Prop :=
  let calibrated :=
    calibrate_profile
      (set_noise_calibration_samples (noise_calibration_samples s) s0) in
  noise_floor s = noise_floor calibrated /\
  threshold s = threshold calibrated.

(** What is left of the world after the reset of lines 155-157. *)
Definition after_reset (t : R) (w : World) : World :=
  set_record_start_time t
    (upd_self (set_last_recording_time t) (set_temp_frames [] w)).

(** A computation preserves a relation between the worlds before and
    after it, whether it returns or raises. *)
Definition preserves {A} (P : World -> World -> Prop) (m : M World A) : Prop :=
  forall w, P w (m w).2.

(** Nothing that calibration produced or started has changed. *)
Definition keeps_calibration (w w' : World) : Prop :=
  threshold (self w') = threshold (self w) /\
  noise_floor (self w') = noise_floor (self w) /\
  noise_calibration_samples (self w') = noise_calibration_samples (self w) /\
  is_calibrated (self w') = is_calibrated (self w) /\
  started w' = started w.

(** Nothing of the capture has changed either. *)
Definition keeps_capture (w w' : World) : Prop :=
  keeps_calibration w w' /\
  consecutive_speech_frames (self w') = consecutive_speech_frames (self w) /\
  temp_frames w' = temp_frames w.

(** Nothing the speech detector reads or writes has changed, and the
    stream and the running flag are as before. *)
Definition keeps_detector (w w' : World) : Prop :=
  threshold (self w') = threshold (self w) /\
  speech_frames_threshold (self w') = speech_frames_threshold (self w) /\
  consecutive_speech_frames (self w') = consecutive_speech_frames (self w) /\
  stream (self w') = stream (self w) /\
  running (self w') = running (self w).

(** An iteration that reads a well-formed block whose filtered peak is
    [volume], and in which a temporary file can be created if needed. *)
Definition reads_block (it : Iteration) (volume : R) : Prop :=
  save_outcome it <> TempFileFails /\
  exists data audio_data,
    read_outcome it = ReadData data /\
    np_frombuffer data = inr audio_data /\
    filtered_peak it = inr volume.

(** The invariant of the runs of a recorder created as [s0]. *)
Definition invariant (s0 : AudioRecorder) (x : System) : Prop :=
  let w := world x in
  (In listen_and_record_thread (started w) ->
   calibration x = CalibrationSpawned \/ calibration x = CalibrationReturned) /\
  (~ In listen_and_record_thread (started w) ->
   listening x = ListeningIdle) /\
  (calibration x = CalibrationFlagged \/ calibration x = CalibrationSpawned \/
   calibration x = CalibrationReturned ->
   is_calibrated (self w) = true) /\
  (listening x = ListeningIdle \/ listening x = ListeningWaiting ->
   temp_frames w = [] /\
   consecutive_speech_frames (self w) = consecutive_speech_frames s0) /\
  match calibration x with
  | CalibrationIdle | CalibrationSampling =>
      threshold (self w) = threshold s0 /\
      noise_floor (self w) = noise_floor s0
  | _ => profile_from s0 (self w)
  end.

(** ** Example inputs *)

(** Two volumes: one above the default threshold of 6000, one below. *)
Definition loud : R := 7000.
Definition quiet : R := 10.

(** A device on which every call succeeds, also on a closed stream. *)
Definition tolerant_device : Device := fun _ _ => None.

(** A mock device that fails when asked to close a second time. *)
Definition strict_device : Device :=
  fun history c =>
    match c with
    | call_close =>
        if bool_decide (call_close ∈ history) then Some IOError else None
    | _ => None
    end.

(** A machine without an input device: opening the stream fails. *)
Definition no_input_device : Device :=
  fun _ c => match c with call_open => Some IOError | _ => None end.

(** A scipy that leaves every sample as it is, with coefficients 1. *)
Definition example_scipy : Scipy :=
  mkScipy (fun _ _ _ _ => 1%R) (fun _ _ _ _ => 1%R)
    (fun _ _ x k => nth k x 0%R).

(** One block of two samples (5 and 5), and a listening recorder that has
    buffered it during an interval started at time 0. *)
Definition block55 : bytes := [Byte.x05; Byte.x00; Byte.x05; Byte.x00].

Definition started_world : World :=
  (start_listening tolerant_device (new_world default_recorder)).2.

Definition buffering_world : World :=
  set_temp_frames [block55] started_world.

(** A run that reaches the capture loop: start, one calibration sample,
    the profile, the flag, the listening thread, its first instant. *)
Definition calibrated_world : World :=
  start_listening_thread
    (upd_self (set_is_calibrated true)
       (upd_self calibrate_profile
          (calibrate_iteration (ReadData block55) started_world).2)).

Definition capturing_system : System :=
  mkSystem (listen_enter 0 0 calibrated_world) true CalibrationReturned
    ListeningCapturing.

(** The same run, seen before [_calibrate_noise] has returned: the
    listening thread, started by line 112, has already passed its wait
    loop and buffered a block (whose filter raised, the block being
    shorter than scipy's padding). *)
Definition early_block : Iteration :=
  mkIteration 0 TempFileFails (ReadData block55) (inl ValueError).

Definition early_capture_system : System :=
  mkSystem (iteration early_block (listen_enter 0 0 calibrated_world)).2 true
    CalibrationSpawned ListeningCapturing.

(** ** Vocabulary of the capture loop as a whole *)

(** The block an iteration reads, if the stream hands one over. *)
Definition block_of (it : Iteration) : list bytes :=
  match read_outcome it with
  | ReadData data => [data]
  | _ => []
  end.

Definition blocks_read (its : list Iteration) : list bytes :=
  concat (map block_of its).

(** Only the queue, the interval timer and the detector's counter of the
    recorder may differ; the device log and the started threads are the
    same. *)
Definition writes_capture_only (w w' : World) : Prop :=
  threshold (self w') = threshold (self w) /\
  chunk_size (self w') = chunk_size (self w) /\
  format (self w') = format (self w) /\
  channels (self w') = channels (self w) /\
  rate (self w') = rate (self w) /\
  recording_interval (self w') = recording_interval (self w) /\
  p (self w') = p (self w) /\
  stream (self w') = stream (self w) /\
  frames (self w') = frames (self w) /\
  is_recording (self w') = is_recording (self w) /\
  running (self w') = running (self w) /\
  noise_floor (self w') = noise_floor (self w) /\
  noise_calibration_samples (self w') = noise_calibration_samples (self w) /\
  calibration_period (self w') = calibration_period (self w) /\
  is_calibrated (self w') = is_calibrated (self w) /\
  speech_frames_threshold (self w') = speech_frames_threshold (self w) /\
  listening_thread (self w') = listening_thread (self w) /\
  devlog w' = devlog w /\
  started w' = started w.

(** The queue has only grown, at its back. *)
Definition queue_grows (w w' : World) : Prop :=
  exists added, audio_queue (self w') = audio_queue (self w) ++ added.

(** The handle at the front of the queue has been taken out. *)
Definition queue_served (w w' : World) : Prop :=
  exists name, audio_queue (self w) = name :: audio_queue (self w').

(** A block [np.frombuffer] accepts and [np.max] finds a peak in. *)
Definition well_formed_block (data : bytes) : bool :=
  negb (Nat.eqb (length data) 0) && Nat.even (length data).

Definition yields_sample (r : ReadOutcome) : bool :=
  match r with
  | ReadData data => well_formed_block data
  | _ => false
  end.

Definition int16 (x : Z) : Prop := (-32768 <= x <= 32767)%Z.

(** Whether the four device calls of [start_listening] all succeed on
    [dev], given the calls logged so far. *)
Definition start_succeeds (dev : Device) (log : list DevCall) : bool :=
  match dev log call_PyAudio,
        dev (call_PyAudio :: log) call_get_default_input_device_info,
        dev (call_get_default_input_device_info :: call_PyAudio :: log)
            call_open,
        dev (call_open :: call_get_default_input_device_info
             :: call_PyAudio :: log) call_start_stream
  with
  | None, None, None, None => true
  | _, _, _, _ => false
  end.

(** A device whose stream opens but cannot be started. *)
Definition no_start_device : Device :=
  fun _ c => match c with call_start_stream => Some IOError | _ => None end.

(** Iterations for the examples: reading [block55] at time [t], the
    filter finding the peak [quiet]. *)
Definition reading_at (t : R) (o : FsOutcome) : Iteration :=
  mkIteration t o (ReadData block55) (inr quiet).

(** * The collaborators of the recorder: src/main.py and src/processors

    Texts (OCR output, transcriptions) are sequences of characters of a
    type [A]; which characters Python counts as whitespace
    ([str.isspace]) and as word characters ([\w] of [re]) are given by
    two predicates, as its Unicode tables are not part of the repository.
    File paths are [string]s. *)

Module Text.
Section Chars.
Context {A : Type}.
Variable is_space : A -> bool.
Variable is_word : A -> bool.

(** [s.lstrip()], [s.rstrip()], [s.strip()] *)
Fixpoint lstrip (s : list A) : list A :=
  match s with
  | c :: rest => if is_space c then lstrip rest else s
  | [] => []
  end.

Definition rstrip (s : list A) : list A := rev (lstrip (rev s)).

Definition strip (s : list A) : list A := rstrip (lstrip s).

(** [re.findall(r'\w+', s)]: the maximal runs of word characters, from
    left to right; [cur] is the run being read, latest character first. *)
Definition close_run (cur : list A) : list (list A) :=
  match cur with
  | [] => []
  | _ => [rev cur]
  end.

Fixpoint findall_words_from (cur : list A) (s : list A) : list (list A) :=
  match s with
  | [] => close_run cur
  | c :: rest =>
      if is_word c then findall_words_from (c :: cur) rest
      else close_run cur ++ findall_words_from [] rest
  end.

Definition findall_words (s : list A) : list (list A) :=
  findall_words_from [] s.
End Chars.
End Text.

(** ** src/processors/light_ocr.py *)
Module LightOCR.

Record LightOCRProcessor : Type := mkLightOCR {
  tesseract_cmd : option string;
  lang : string;
  config : string;
  _loaded : bool
}.

(** [load_model]: marks the processor ready (the path of the tesseract
    executable it hands to pytesseract is kept in [tesseract_cmd]). *)
Definition load_model (self : LightOCRProcessor) : LightOCRProcessor :=
  mkLightOCR (tesseract_cmd self) (lang self) (config self) true.

(** [LightOCRProcessor(tesseract_cmd, lang, config)] *)
Definition init (tesseract_cmd0 : option string) (lang0 config0 : string)
    : LightOCRProcessor :=
  load_model (mkLightOCR tesseract_cmd0 lang0 config0 false).

(** [process(img_path)]; [ocr] is what [Image.open] followed by
    [pytesseract.image_to_string] yields for the image: the raw text, or
    an exception. *)
Definition process {A} (is_space : A -> bool) (self : LightOCRProcessor)
    (ocr : Exc (list A)) : Exc (list A) :=
  if negb (_loaded self) then inl RuntimeError
  else match ocr with
       | inl e => inl e
       | inr text => inr (Text.strip is_space text)
       end.
End LightOCR.

(** ** src/main.py: find_best_text_frame *)
Module BestFrame.
Section Search.
Context {A Frame : Type}.
Variable is_space : A -> bool.
Variable is_word : A -> bool.

(** What one pass of the [while] loop meets: [cap.read()] gives no frame,
    or a frame, for which [save_frame_to_jpg] yields a path (or raises)
    and tesseract a raw text (or raises). *)
Inductive CamEvent : Type :=
  | NoFrame
  | GotFrame (frame : Frame) (saved : Exc string) (ocr : Exc (list A)).

(** The locals of the function and the temporary files on disk. *)
Record Search : Type := mkSearch {
  best_frame : option Frame;
  best_text_count : nat;
  best_text : list A;
  frames_analyzed : nat;
  files : gset string
}.

Definition start (files0 : gset string) : Search :=
  mkSearch None 0 [] 0 files0.

Definition count_frame (st : Search) : Search :=
  mkSearch (best_frame st) (best_text_count st) (best_text st)
    (S (frames_analyzed st)) (files st).

Definition upd_files (f : gset string -> gset string) (st : Search) : Search :=
  mkSearch (best_frame st) (best_text_count st) (best_text st)
    (frames_analyzed st) (f (files st)).

Definition new_best (frame : Frame) (word_count : nat) (text : list A)
    (st : Search) : Search :=
  mkSearch (Some frame) word_count text (frames_analyzed st) (files st).

(** [save_frame_to_jpg(frame)]: a temporary file is created and its name
    returned. *)
Definition save_frame_to_jpg (saved : Exc string) : M Search string :=
  let! name := lift saved in
  modify (upd_files (fun fs => {[name]} ∪ fs)) ;>
  ret name.

(** [os.unlink(path)] *)
Definition unlink (path : string) : M Search unit :=
  modify (upd_files (fun fs => fs ∖ {[path]})).

(** Lines 46-68: one frame is saved, read and compared with the best. *)
Definition analyse (light_ocr : LightOCR.LightOCRProcessor) (frame : Frame)
    (saved : Exc string) (ocr : Exc (list A)) : M Search unit :=
  modify count_frame ;>
  let! frame_path := save_frame_to_jpg saved in
  try_except
    (let! detected_text := lift (LightOCR.process is_space light_ocr ocr) in
     unlink frame_path ;>
     when (negb (Nat.eqb (length detected_text) 0))
       (let word_count := length (Text.findall_words is_word detected_text) in
        let! st := gets (fun st => st) in
        when (best_text_count st <? word_count)%nat
          (modify (new_best frame word_count detected_text))))
    (fun _ =>
       let! fs := gets files in
       when (bool_decide (frame_path ∈ fs)) (unlink frame_path)).

(** The loop: the clock decides how many passes there are. *)
Fixpoint search (light_ocr : LightOCR.LightOCRProcessor)
    (events : list CamEvent) : M Search unit :=
  match events with
  | [] => ret tt
  | NoFrame :: rest => search light_ocr rest
  | GotFrame frame saved ocr :: rest =>
      analyse light_ocr frame saved ocr ;> search light_ocr rest
  end.

Definition find_best_text_frame (light_ocr : LightOCR.LightOCRProcessor)
    (events : list CamEvent) (files0 : gset string)
    : Exc (option Frame * list A) * gset string :=
  match search light_ocr events (start files0) with
  | (inr _, st) => (inr (best_frame st, best_text st), files st)
  | (inl e, st) => (inl e, files st)
  end.

(** The stripped text of a frame that was saved and read, if any. *)
Definition text_of (light_ocr : LightOCR.LightOCRProcessor) (ev : CamEvent)
    : option (Frame * list A) :=
  match ev with
  | GotFrame frame (inr _) ocr =>
      match LightOCR.process is_space light_ocr ocr with
      | inr text => Some (frame, text)
      | inl _ => None
      end
  | _ => None
  end.

Definition words (text : list A) : nat :=
  length (Text.findall_words is_word text).

(** No frame fails to be saved. *)
Definition all_saved (events : list CamEvent) : Prop :=
  Forall (fun ev => match ev with
                    | GotFrame _ (inl _) _ => False
                    | _ => True
                    end) events.

(** The paths of the saved frames. *)
Definition paths (events : list CamEvent) : list string :=
  flat_map (fun ev => match ev with
                      | GotFrame _ (inr name) _ => [name]
                      | _ => []
                      end) events.

(** [frame] with text [text] is the first frame of [events] with the most
    words, and it has at least one. *)
Definition is_best (light_ocr : LightOCR.LightOCRProcessor)
    (events : list CamEvent) (frame : Frame) (text : list A) : Prop :=
  exists pre ev post,
    events = pre ++ ev :: post /\
    text_of light_ocr ev = Some (frame, text) /\
    (0 < words text)%nat /\
    (forall ev' f' t', In ev' pre -> text_of light_ocr ev' = Some (f', t') ->
                       (words t' < words text)%nat) /\
    (forall ev' f' t', In ev' post -> text_of light_ocr ev' = Some (f', t') ->
                       (words t' <= words text)%nat).

(** No frame of [events] was read with a word in it. *)
Definition no_text (light_ocr : LightOCR.LightOCRProcessor)
    (events : list CamEvent) : Prop :=
  forall ev f t, In ev events -> text_of light_ocr ev = Some (f, t) ->
                 words t = 0%nat.

(** What analysing one saved frame does to the locals and the files. *)
Definition analysed (light_ocr : LightOCR.LightOCRProcessor) (frame : Frame)
    (name : string) (ocr : Exc (list A)) (st : Search) : Search :=
  let st1 := upd_files (fun fs => ({[name]} ∪ fs) ∖ {[name]}) (count_frame st) in
  match LightOCR.process is_space light_ocr ocr with
  | inr text =>
      if (best_text_count st <? words text)%nat
      then new_best frame (words text) text st1
      else st1
  | inl _ => st1
  end.

(** The locals after the events seen so far. *)
Definition search_invariant (light_ocr : LightOCR.LightOCRProcessor)
    (events : list CamEvent) (st : Search) : Prop :=
  match best_frame st with
  | None =>
      best_text st = [] /\ best_text_count st = 0%nat /\
      no_text light_ocr events
  | Some frame =>
      best_text_count st = words (best_text st) /\
      is_best light_ocr events frame (best_text st)
  end.
End Search.
End BestFrame.

(** Example inputs: ASCII texts with the blank as only whitespace and
    every other character a word character; frames are numbers. *)
Definition blank (c : Ascii.ascii) : bool := Ascii.eqb c (Ascii.ascii_of_nat 32).
Definition not_blank (c : Ascii.ascii) : bool := negb (Ascii.eqb c (Ascii.ascii_of_nat 32)).

Definition example_light_ocr : LightOCR.LightOCRProcessor :=
  LightOCR.init (Some "/usr/bin/tesseract") "eng" "--psm 6".

Definition example_events : list (@BestFrame.CamEvent Ascii.ascii nat) :=
  [ BestFrame.NoFrame;
    BestFrame.GotFrame 1%nat (inr "a.jpg")
      (inr (String.list_ascii_of_string " hi there "));
    BestFrame.GotFrame 2%nat (inr "b.jpg") (inl IOError);
    BestFrame.GotFrame 3%nat (inr "c.jpg")
      (inr (String.list_ascii_of_string "x y")) ].

(** ** src/processors/transcriber.py and process_audio of src/main.py *)
Module Transcriber.

Inductive Recognizer : Type := RecognizerObject.

Record AudioTranscriber : Type := mkTranscriber {
  chunk_length_ms : Z;
  language : string;
  recognizer : option Recognizer
}.

Definition load_model (self : AudioTranscriber) : AudioTranscriber :=
  mkTranscriber (chunk_length_ms self) (language self) (Some RecognizerObject).

(** [AudioTranscriber(chunk_length_ms, language)] *)
Definition init (chunk_length_ms0 : Z) (language0 : string) : AudioTranscriber :=
  load_model (mkTranscriber chunk_length_ms0 language0 None).

Definition dot : Ascii.ascii := Ascii.ascii_of_nat 46.

(** [s.split('.')]: the segments between the dots, at least one. *)
Fixpoint split_dot (s : string) : list string :=
  match s with
  | EmptyString => [EmptyString]
  | String c rest =>
      if Ascii.eqb c dot then EmptyString :: split_dot rest
      else match split_dot rest with
           | seg :: segs => String c seg :: segs
           | [] => [String c EmptyString]
           end
  end.

Fixpoint has_dot (s : string) : bool :=
  match s with
  | EmptyString => false
  | String c rest => Ascii.eqb c dot || has_dot rest
  end.

(** [s.lower()] on the letters A-Z; other characters are kept.  (None of
    the extensions compared with below can arise from lower-casing a
    character outside ASCII.) *)
Definition to_lower (c : Ascii.ascii) : Ascii.ascii :=
  let n := Ascii.nat_of_ascii c in
  if (65 <=? n)%nat && (n <=? 90)%nat then Ascii.ascii_of_nat (n + 32)
  else c.

Fixpoint lower (s : string) : string :=
  match s with
  | EmptyString => EmptyString
  | String c rest => String (to_lower c) (lower rest)
  end.

(** [file_path.split('.')[-1].lower()] *)
Definition extension (file_path : string) : string :=
  lower (List.last (split_dot file_path) EmptyString).

Inductive AudioFormat : Type := Mp3 | Aiff | Wav | Avi.

(** The dispatch of lines 33-42 on the extension. *)
Definition audio_format (ext : string) : Exc AudioFormat :=
  if String.eqb ext "mp3" then inr Mp3
  else if String.eqb ext "aiff" || String.eqb ext "aif" then inr Aiff
  else if String.eqb ext "wav" then inr Wav
  else if String.eqb ext "avi" then inr Avi
  else inl ValueError.

(** [range(0, n, step)] *)
Definition py_range0 (n step : Z) : Exc (list Z) :=
  if (step =? 0)%Z then inl ValueError
  else
    let count :=
      if (0 <? step)%Z then ((n + step - 1) / step)%Z
      else ((- n + - step - 1) / - step)%Z in
    inr (map (fun k => (Z.of_nat k * step)%Z) (seq 0 (Z.to_nat count))).

(** [audio[i:i + length]] of an audio of [n] milliseconds, as the pair of
    its bounds. *)
Definition chunk (n length i : Z) : Z * Z := (i, Z.min (i + length) n).

Definition audio_chunks (n length : Z) : Exc (list (Z * Z)) :=
  match py_range0 n length with
  | inl e => inl e
  | inr starts => inr (map (chunk n length) starts)
  end.

(** [f"chunk_{i}.wav"] *)
Definition chunk_file (i : nat) : string := "chunk_" +:+ pretty i +:+ ".wav".

Section Texts.
Context {A : Type}.
Variable is_space : A -> bool.
Variable space : A.  (* the character of [" "] *)

(** What happens to one chunk: it cannot be exported; it is recognised;
    Google cannot understand it or cannot be reached; or something else
    raises once the chunk file exists. *)
Inductive Recognition : Type :=
  | ExportFails (e : exn)
  | Recognized (text : list A)
  | UnknownValueError
  | RequestError
  | RecognitionFails (e : exn).

(** The text gathered so far and the files of the working directory. *)
Record Work : Type := mkWork {
  full_text : list A;
  files : gset string
}.

Definition upd_files (f : gset string -> gset string) (st : Work) : Work :=
  mkWork (full_text st) (f (files st)).

Definition add_text (text : list A) (st : Work) : Work :=
  mkWork (full_text st ++ text ++ [space]) (files st).

(** The body of the loop of lines 47-62. *)
Definition transcribe_chunk (i : nat) (r : Recognition) : M Work unit :=
  let chunk_file := chunk_file i in
  (match r with
   | ExportFails e => raise e
   | _ => modify (upd_files (fun fs => {[chunk_file]} ∪ fs))
   end) ;>
  (match r with
   | Recognized text => modify (add_text text)
   | RecognitionFails e => raise e
   | _ => ret tt
   end) ;>
  modify (upd_files (fun fs => fs ∖ {[chunk_file]})).

(** The loop over the chunks [i], [i + 1], ...; [results] tells what
    happens to each. *)
Fixpoint transcribe_chunks (results : nat -> Recognition) (i count : nat)
    : M Work unit :=
  match count with
  | O => ret tt
  | S k => transcribe_chunk i (results i) ;> transcribe_chunks results (S i) k
  end.

(** [process(file_path)]; [loaded] is what pydub yields for the file: the
    length of the audio in milliseconds, or an exception. *)
Definition process (self : AudioTranscriber) (file_path : string)
    (loaded : Exc Z) (results : nat -> Recognition) (files0 : gset string)
    : Exc (list A) * gset string :=
  match recognizer self with
  | None => (inl RuntimeError, files0)
  | Some _ =>
      match audio_format (extension file_path) with
      | inl e => (inl e, files0)
      | inr _ =>
          match loaded with
          | inl e => (inl e, files0)
          | inr n =>
              match audio_chunks n (chunk_length_ms self) with
              | inl e => (inl e, files0)
              | inr chunks =>
                  match transcribe_chunks results 0 (length chunks)
                          (mkWork [] files0) with
                  | (inr _, st) =>
                      (inr (Text.strip is_space (full_text st)), files st)
                  | (inl e, st) => (inl e, files st)
                  end
              end
          end
      end
  end.

(** [process_audio(audio_file, transcriber)] of src/main.py *)
Definition process_audio (self : AudioTranscriber) (audio_file : string)
    (loaded : Exc Z) (results : nat -> Recognition) (files0 : gset string)
    : list A * gset string :=
  match process self audio_file loaded results files0 with
  | (inr transcription, fs) => (transcription, fs)
  | (inl _, fs) => ([], fs)
  end.

(** The texts of the recognised chunks among the first [count], each
    followed by a blank, as [full_text] gathers them. *)
Fixpoint gathered (results : nat -> Recognition) (i count : nat) : list A :=
  match count with
  | O => []
  | S k =>
      match results i with
      | Recognized text => text ++ [space]
      | _ => []
      end ++ gathered results (S i) k
  end.

(** No chunk among [i], ..., [i + count - 1] raises. *)
Definition no_failure (results : nat -> Recognition) (count : nat) : Prop :=
  forall i, (i < count)%nat ->
    match results i with
    | ExportFails _ | RecognitionFails _ => False
    | _ => True
    end.
End Texts.

Definition chunk_files (count : nat) : gset string :=
  list_to_set (map chunk_file (seq 0 count)).
End Transcriber.

(** Example inputs for the transcriber: an audio of 150 ms cut every
    60 ms, whose second chunk Google cannot understand. *)
Definition example_transcriber : Transcriber.AudioTranscriber :=
  Transcriber.init 60 "en-US".

Definition example_results (i : nat) : @Transcriber.Recognition Ascii.ascii :=
  match i with
  | 0%nat => Transcriber.Recognized (String.list_ascii_of_string " what is")
  | 1%nat => Transcriber.UnknownValueError
  | _ => Transcriber.Recognized (String.list_ascii_of_string "here")
  end.

(** * Properties *)

(** ** The speech detector *)

Lemma speech_check_above v s :
  above s v ->
  speech_check v s =
    (set_consecutive_speech_frames (consecutive_speech_frames s + 1) s,
     (consecutive_speech_frames s + 1 =? speech_frames_threshold s)%Z).
Proof.
  unfold above, speech_check. intros H.
  destruct (Rgt_dec v (threshold s)); [reflexivity | contradiction].
Qed.

Lemma speech_check_below v s :
  ~ above s v ->
  speech_check v s = (set_consecutive_speech_frames 0 s, false).
Proof.
  unfold above, speech_check. intros H.
  destruct (Rgt_dec v (threshold s)); [contradiction | reflexivity].
Qed.

(** The detector writes its counter and nothing else. *)
Lemma speech_check_frame v s :
  (speech_check v s).1 =
    set_consecutive_speech_frames
      (consecutive_speech_frames (speech_check v s).1) s.
Proof.
  unfold speech_check. destruct (Rgt_dec v (threshold s)); reflexivity.
Qed.

Lemma speech_check_threshold v s :
  threshold (speech_check v s).1 = threshold s /\
  speech_frames_threshold (speech_check v s).1 = speech_frames_threshold s.
Proof. rewrite speech_check_frame. split; reflexivity. Qed.

Lemma speech_run_cons v rest s :
  speech_run (v :: rest) s =
    ((speech_run rest (speech_check v s).1).1,
     (speech_check v s).2 :: (speech_run rest (speech_check v s).1).2).
Proof.
  simpl. destruct (speech_check v s) as [s1 r]. simpl.
  destruct (speech_run rest s1) as [s2 rs]. reflexivity.
Qed.

Lemma speech_run_app pre post s :
  speech_run (pre ++ post) s =
    ((speech_run post (speech_run pre s).1).1,
     (speech_run pre s).2 ++ (speech_run post (speech_run pre s).1).2).
Proof.
  revert s. induction pre as [|v pre IH]; intros s.
  - simpl. destruct (speech_run post s); reflexivity.
  - rewrite <- app_comm_cons, !speech_run_cons, IH. reflexivity.
Qed.

Lemma speech_run_length vols s :
  length (speech_run vols s).2 = length vols.
Proof.
  revert s. induction vols as [|v vols IH]; intros s; [reflexivity|].
  rewrite speech_run_cons. simpl. now rewrite IH.
Qed.

Lemma speech_run_threshold vols s :
  threshold (speech_run vols s).1 = threshold s /\
  speech_frames_threshold (speech_run vols s).1 = speech_frames_threshold s.
Proof.
  revert s. induction vols as [|v vols IH]; intros s; [split; reflexivity|].
  rewrite speech_run_cons. simpl.
  destruct (IH (speech_check v s).1) as [-> ->].
  apply speech_check_threshold.
Qed.

Lemma above_run vols s v : above (speech_run vols s).1 v <-> above s v.
Proof.
  unfold above. now destruct (speech_run_threshold vols s) as [-> _].
Qed.

(** While the counter stays short of the debounce count, nothing is
    reported. *)
Lemma speech_run_short vols s :
  (0 <= consecutive_speech_frames s)%Z ->
  (consecutive_speech_frames s + Z.of_nat (length vols)
     < speech_frames_threshold s)%Z ->
  Forall (above s) vols ->
  (speech_run vols s).2 = repeat false (length vols) /\
  consecutive_speech_frames (speech_run vols s).1 =
    (consecutive_speech_frames s + Z.of_nat (length vols))%Z.
Proof.
  revert s. induction vols as [|v vols IH]; intros s H0 Hlt Hall.
  - simpl. split; [reflexivity | lia].
  - inversion Hall as [|? ? Hv Hrest]; subst.
    rewrite speech_run_cons, (speech_check_above _ _ Hv). cbn [fst snd].
    simpl length in Hlt.
    destruct (IH (set_consecutive_speech_frames
                    (consecutive_speech_frames s + 1) s)) as [IH1 IH2].
    + simpl. lia.
    + simpl. lia.
    + exact Hrest.
    + rewrite IH1, IH2. simpl. split; [|lia].
      f_equal. apply Z.eqb_neq. lia.
Qed.

(** Once the counter has reached the debounce count, further
    above-threshold blocks only increment it. *)
Lemma speech_run_past vols s :
  (speech_frames_threshold s <= consecutive_speech_frames s)%Z ->
  Forall (above s) vols ->
  (speech_run vols s).2 = repeat false (length vols) /\
  consecutive_speech_frames (speech_run vols s).1 =
    (consecutive_speech_frames s + Z.of_nat (length vols))%Z.
Proof.
  revert s. induction vols as [|v vols IH]; intros s Hge Hall.
  - simpl. split; [reflexivity | lia].
  - inversion Hall as [|? ? Hv Hrest]; subst.
    rewrite speech_run_cons, (speech_check_above _ _ Hv). cbn [fst snd].
    destruct (IH (set_consecutive_speech_frames
                    (consecutive_speech_frames s + 1) s)) as [IH1 IH2].
    + simpl. lia.
    + exact Hrest.
    + rewrite IH1, IH2. simpl. split; [|lia].
      f_equal. apply Z.eqb_neq. lia.
Qed.

(** ** start_listening and stop *)

Ltac run_monad :=
  unfold bind, ret, raise, gets, modify, try_except, when, lift,
    device_call in *.

(** One call of [stop]: it returns normally whatever the device does, and
    asks the device to close when [stop_stream] did not raise. *)
Lemma stop_once (dev : Device) (w : World) :
  (stop dev w).1 = inr tt /\
  running (self (stop dev w).2) = false /\
  stream (self (stop dev w).2) = stream (self w) /\
  (is_Some (stream (self w)) ->
   closes (stop dev w).2 =
     (closes w + match dev (devlog w) call_stop_stream with
                 | Some _ => 0
                 | None => 1
                 end)%nat) /\
  (stream (self w) = None -> closes (stop dev w).2 = closes w).
Proof.
  destruct w as [s log files threads buffered t0]. destruct s.
  unfold stop, closes. run_monad. cbn.
  repeat (match goal with
          | |- context [bool_decide (is_Some ?o)] => destruct o; cbn
          | |- context [dev ?h ?c] => destruct (dev h c) eqn:?; cbn
          end);
    repeat split; auto; try lia; try discriminate;
    try (intros [? ?]; discriminate);
    intros _; repeat case_bool_decide; try congruence; cbn; lia.
Qed.

Lemma count_calls_app c a b :
  count_calls c (a ++ b) = (count_calls c a + count_calls c b)%nat.
Proof. unfold count_calls. now rewrite List.filter_app, length_app. Qed.

(** The calls one [stop] makes, latest first, in front of the log: it
    clears neither handle. *)
Lemma stop_log (dev : Device) (w : World) :
  devlog (stop dev w).2 =
    match p (self w) with Some _ => [call_terminate] | None => [] end
    ++ match stream (self w) with
       | Some _ =>
           match dev (devlog w) call_stop_stream with
           | Some _ => []
           | None => [call_close]
           end ++ [call_stop_stream]
       | None => []
       end
    ++ devlog w /\
  stream (self (stop dev w).2) = stream (self w) /\
  p (self (stop dev w).2) = p (self w).
Proof.
  destruct w as [s log files threads buffered t0]. destruct s.
  unfold stop. run_monad. cbn.
  repeat (match goal with
          | |- context [bool_decide (is_Some ?o)] => destruct o; cbn
          | |- context [dev ?h ?c] => destruct (dev h c) eqn:?; cbn
          end);
    repeat split; reflexivity.
Qed.

(** C4, as the code has it.  Calling [stop] a second time raises nothing:
    every error of the device is caught.  The second call is not guarded
    by the first, and neither call clears the stream or the PyAudio
    handle.  With a stream stored, each of the two calls asks for
    [stop_stream] once and, if that does not raise, for [close] once;
    with a handle stored, each call asks for [terminate] once; with no
    stream (no handle) stored, neither [stop_stream] nor [close] (no
    [terminate]) is asked for.  Nothing else is called on the device. *)
Theorem stop_twice_does_not_raise (dev : Device) (w : World) :
  let w1 := (stop dev w).2 in
  let w2 := (stop dev w1).2 in
  (stop dev w).1 = inr tt /\
  (stop dev w1).1 = inr tt /\
  running (self w2) = false /\
  stream (self w2) = stream (self w) /\
  p (self w2) = p (self w) /\
  calls call_stop_stream w2 =
    (calls call_stop_stream w + if_stored (stream (self w)) 2)%nat /\
  closes w2 =
    (closes w
     + if_stored (stream (self w))
         (succeeds dev (devlog w) call_stop_stream
          + succeeds dev (devlog w1) call_stop_stream))%nat /\
  calls call_terminate w2 =
    (calls call_terminate w + if_stored (p (self w)) 2)%nat /\
  (forall c,
     c <> call_stop_stream -> c <> call_close -> c <> call_terminate ->
     calls c w2 = calls c w).
Proof.
  cbv zeta.
  destruct (stop_once dev w) as (Hr1 & _ & _ & _ & _).
  destruct (stop_once dev (stop dev w).2) as (Hr2 & Hrun2 & _ & _ & _).
  destruct (stop_log dev w) as (Hl1 & Hs1 & Hp1).
  destruct (stop_log dev (stop dev w).2) as (Hl2 & Hs2 & Hp2).
  rewrite Hs1, Hp1 in *.
  split; [exact Hr1|]. split; [exact Hr2|]. split; [exact Hrun2|].
  split; [exact Hs2|]. split; [exact Hp2|].
  unfold calls, closes, succeeds. fold (count_calls call_close).
  rewrite Hl2.
  generalize (dev (devlog (stop dev w).2) call_stop_stream) as second.
  rewrite Hl1.
  generalize (dev (devlog w) call_stop_stream) as first.
  intros first second.
  rewrite !count_calls_app.
  destruct (p (self w)), (stream (self w)), first, second;
    cbn [if_stored app];
    (split; [|split; [|split]]);
    try (intros c H1 H2 H3);
    rewrite ?count_calls_app; unfold count_calls; cbn;
    repeat case_bool_decide; try congruence; cbn; lia.
Qed.

Lemma stop_twice_does_not_raise_witness :
  let w2 := (stop tolerant_device (stop tolerant_device started_world).2).2 in
  (stop tolerant_device started_world).1 = inr tt /\
  (stop tolerant_device (stop tolerant_device started_world).2).1 = inr tt /\
  running (self w2) = false /\
  calls call_stop_stream w2 = 2%nat /\
  closes w2 = 2%nat /\
  calls call_terminate w2 = 2%nat /\
  calls call_open w2 = calls call_open started_world.
Proof.
  destruct (stop_twice_does_not_raise tolerant_device started_world)
    as (H1 & H2 & H3 & _ & _ & H4 & H5 & H6 & H7).
  split; [exact H1|]. split; [exact H2|]. split; [exact H3|].
  split; [exact H4|]. split; [exact H5|]. split; [exact H6|].
  apply H7; discriminate.
Defined.

(** C4 as stated fails: on a device that accepts every call, two calls of
    [stop] after a successful start close the stream twice. *)
Lemma stop_twice_closes_twice :
  closes started_world = 0%nat /\
  closes (stop tolerant_device (stop tolerant_device started_world).2).2 = 2%nat.
Proof. split; reflexivity. Qed.

(** On the mock that refuses a second close the second request is still
    made; the error it raises is caught. *)
Lemma stop_twice_on_strict_device :
  (stop strict_device (stop strict_device started_world).2).1 = inr tt /\
  closes (stop strict_device (stop strict_device started_world).2).2 = 2%nat.
Proof. split; reflexivity. Qed.

(** C5 does not hold of the code.  When opening the stream fails,
    [start_listening] does not hand the error to its caller: its own
    handler terminates the PyAudio handle and the call returns normally
    (only an error of [terminate] itself would reach the caller).  The
    open is not tried again, no stream is stored, and no calibration
    thread is started. *)
Theorem open_failure_is_absorbed (dev : Device) (w : World) (e : exn) :
  dev (devlog w) call_PyAudio = None ->
  dev (call_PyAudio :: devlog w) call_get_default_input_device_info = None ->
  dev (call_get_default_input_device_info :: call_PyAudio :: devlog w)
      call_open = Some e ->
  let r := start_listening dev w in
  let history :=
    call_open :: call_get_default_input_device_info :: call_PyAudio
    :: devlog w in
  r.1 = match dev history call_terminate with
        | Some e' => inl e'
        | None => inr tt
        end /\
  devlog r.2 = call_terminate :: history /\
  stream (self r.2) = stream (self w) /\
  started r.2 = started w /\
  is_calibrated (self r.2) = is_calibrated (self w).
Proof.
  intros H1 H2 H3. unfold start_listening. run_monad. cbn.
  rewrite H1. cbn. rewrite H2. cbn. rewrite H3. cbn.
  destruct (dev _ call_terminate); cbn; repeat split; reflexivity.
Qed.

Lemma open_failure_is_absorbed_witness :
  let r := start_listening no_input_device (new_world default_recorder) in
  r.1 = inr tt /\
  devlog r.2 =
    [call_terminate; call_open; call_get_default_input_device_info;
     call_PyAudio] /\
  stream (self r.2) = None /\
  started r.2 = [] /\
  is_calibrated (self r.2) = false.
Proof.
  apply (open_failure_is_absorbed no_input_device
           (new_world default_recorder) IOError); reflexivity.
Defined.

(** With no input device the call returns normally: the handler that
    main.py puts around it (lines 121-129) is not reached. *)
Lemma open_failure_not_propagated :
  no_input_device [call_get_default_input_device_info; call_PyAudio] call_open
    = Some IOError /\
  (start_listening no_input_device (new_world default_recorder)).1 = inr tt.
Proof. split; reflexivity. Qed.

(** ** _save_recording and the interval check *)

(** The three ways a call of [_save_recording] can go. *)
Lemma save_written name blocks w hdr :
  wave_header (self w) = inr hdr ->
  _save_recording (WriteOk name) blocks w =
    (inr tt,
     upd_self (queue_put name)
       (upd_fs (insert name
                  (WaveFile (mkWav hdr.1.1 hdr.1.2 hdr.2 (concat blocks))))
          (upd_fs (insert name EmptyFile) w))).
Proof.
  intros H. unfold _save_recording. run_monad. cbn. rewrite H. reflexivity.
Qed.

Lemma save_dropped name blocks o w :
  o = WriteFails name \/
  (o = WriteOk name /\ exists e, wave_header (self w) = inl e) ->
  _save_recording o blocks w =
    (inr tt, upd_fs (delete name) (upd_fs (insert name EmptyFile) w)).
Proof.
  intros [-> | [-> [e H]]]; unfold _save_recording; run_monad; cbn.
  - destruct (wave_header (self w)); cbn;
      rewrite lookup_insert_eq, bool_decide_eq_true_2 by eauto; reflexivity.
  - rewrite H. cbn.
    rewrite lookup_insert_eq, bool_decide_eq_true_2 by eauto. reflexivity.
Qed.

Lemma save_tempfile_fails blocks w :
  _save_recording TempFileFails blocks w = (inl UnboundLocalError, w).
Proof. reflexivity. Qed.

Lemma interval_check_reached t o w :
  interval_reached t (self w) = true ->
  interval_check t o w =
    match temp_frames w with
    | [] => (inr tt, after_reset t w)
    | _ :: _ =>
        match _save_recording o (temp_frames w) w with
        | (inr _, w1) => (inr tt, after_reset t w1)
        | (inl e, w1) => (inl e, w1)
        end
    end.
Proof.
  intros H. unfold interval_check. run_monad. rewrite H.
  destruct (temp_frames w) as [|b bs]; cbn; [reflexivity|].
  destruct (_save_recording o (b :: bs) w) as [[e|[]] w1]; reflexivity.
Qed.

Lemma interval_check_not_reached t o w :
  interval_reached t (self w) = false ->
  interval_check t o w = (inr tt, w).
Proof. intros H. unfold interval_check. run_monad. now rewrite H. Qed.

Lemma interval_reached_true t s :
  (t - last_recording_time s >= recording_interval s)%R ->
  interval_reached t s = true.
Proof.
  intros H. unfold interval_reached.
  destruct (Rge_dec _ _); [reflexivity | contradiction].
Qed.

Lemma wave_header_positive s hdr :
  wave_header s = inr hdr -> (0 < hdr.1.2 * hdr.1.1)%Z.
Proof.
  unfold wave_header, get_sample_size.
  destruct (channels s <? 1)%Z eqn:Hc; [discriminate|].
  apply Z.ltb_ge in Hc.
  destruct (p s); [|discriminate].
  repeat (match goal with
          | |- context [(?a =? ?b)%Z] => destruct (a =? b)%Z
          end);
    try discriminate;
    (destruct (rate s <=? 0)%Z; [discriminate|]);
    intros [= <-]; cbn; lia.
Qed.

(** Concatenating blocks that hold whole frames adds up their frames. *)
Lemma concat_frames (k : Z) (blocks : list bytes) :
  (0 < k)%Z ->
  Forall (fun b => (k | Z.of_nat (length b))%Z) blocks ->
  (Z.of_nat (length (concat blocks)) / k)%Z = total_frames k blocks.
Proof.
  intros Hk. induction 1 as [|b bs [q Hq] _ IH]; [reflexivity|].
  unfold total_frames in *. cbn [concat map fold_right].
  rewrite length_app, Nat2Z.inj_add, Hq, <- IH.
  rewrite Z.div_add_l by lia. rewrite Z.div_mul by lia. reflexivity.
Qed.

(** C1, as the code has it.  At a completed interval: with no block
    buffered nothing is written and nothing is enqueued; with at least one
    block buffered and the container written, exactly one handle is
    enqueued, and the container it names holds the buffered blocks in
    order, its frame count being the sum of theirs; when writing the
    container fails, the file is removed and nothing is enqueued. *)
Theorem flush_enqueues_one_segment (t : R) (o : FsOutcome) (w : World) :
  interval_reached t (self w) = true ->
  let w' := (interval_check t o w).2 in
  (temp_frames w = [] ->
   audio_queue (self w') = audio_queue (self w) /\ fs w' = fs w) /\
  (temp_frames w <> [] ->
   forall name hdr,
     o = WriteOk name ->
     wave_header (self w) = inr hdr ->
     audio_queue (self w') = audio_queue (self w) ++ [name] /\
     exists f,
       fs w' !! name = Some (WaveFile f) /\
       (nchannels f, sampwidth f, framerate f) = hdr /\
       framedata f = concat (temp_frames w) /\
       (Forall (fun b => (sampwidth f * nchannels f | Z.of_nat (length b))%Z)
               (temp_frames w) ->
        nframes f = total_frames (sampwidth f * nchannels f) (temp_frames w))) /\
  (temp_frames w <> [] ->
   forall name,
     o = WriteFails name \/
     (o = WriteOk name /\ exists e, wave_header (self w) = inl e) ->
     audio_queue (self w') = audio_queue (self w) /\ fs w' !! name = None).
Proof.
  intros Hreached. cbv zeta. rewrite (interval_check_reached _ _ _ Hreached).
  split; [|split].
  - intros ->. split; reflexivity.
  - intros Hne name hdr -> Hhdr.
    destruct (temp_frames w) as [|b bs] eqn:Hbuf; [congruence|].
    rewrite (save_written _ _ _ _ Hhdr). cbn.
    split; [reflexivity|].
    destruct hdr as [[ch width] fr].
    exists (mkWav ch width fr (concat (b :: bs))). cbn [fst snd].
    rewrite lookup_insert_eq.
    repeat split.
    intros Hall. unfold nframes. cbn [framedata sampwidth nchannels] in *.
    apply concat_frames; [|exact Hall].
    apply (wave_header_positive _ _ Hhdr).
  - intros Hne name Hfail.
    destruct (temp_frames w) as [|b bs] eqn:Hbuf; [congruence|].
    rewrite (save_dropped _ _ _ _ Hfail). cbn.
    split; [reflexivity | apply lookup_delete_eq].
Qed.

Lemma interval_reached_buffering :
  interval_reached 10 (self buffering_world) = true.
Proof. apply interval_reached_true. simpl. lra. Qed.

Lemma flush_enqueues_one_segment_witness :
  interval_reached 10 (self buffering_world) = true /\
  audio_queue
    (self (interval_check 10 (WriteOk "seg.wav") buffering_world).2) =
    ["seg.wav"].
Proof.
  split; [exact interval_reached_buffering|].
  destruct (flush_enqueues_one_segment 10 (WriteOk "seg.wav") buffering_world
              interval_reached_buffering) as (_ & Hwritten & _).
  apply (Hwritten ltac:(discriminate) "seg.wav" (1, 2, 44100)%Z eq_refl eq_refl).
Defined.

(** C1 as stated fails: a block is buffered, the interval is over, the
    disk refuses the write, and nothing is enqueued. *)
Lemma failed_write_enqueues_nothing :
  temp_frames buffering_world = [block55] /\
  interval_reached 10 (self buffering_world) = true /\
  audio_queue
    (self (interval_check 10 (WriteFails "seg.wav") buffering_world).2) = [].
Proof.
  split; [reflexivity|]. split; [exact interval_reached_buffering|].
  rewrite (interval_check_reached _ _ _ interval_reached_buffering).
  reflexivity.
Qed.



(** When the temporary file cannot be created the handler of
    [_save_recording] raises itself, and the reset is skipped. *)
Lemma tempfile_failure_skips_reset (t : R) (w : World) :
  interval_reached t (self w) = true ->
  temp_frames w <> [] ->
  interval_check t TempFileFails w = (inl UnboundLocalError, w).
Proof.
  intros Hreached Hne. rewrite (interval_check_reached _ _ _ Hreached).
  destruct (temp_frames w); [congruence | reflexivity].
Qed.

(** ** _calibrate_noise *)

(** An iteration of the sampling loop never raises and touches nothing
    but the list of samples. *)
Lemma calibrate_iteration_frame r w :
  let w' := (calibrate_iteration r w).2 in
  (calibrate_iteration r w).1 = inr tt /\
  set_noise_calibration_samples (noise_calibration_samples (self w)) (self w')
    = self w /\
  devlog w' = devlog w /\ fs w' = fs w /\ started w' = started w /\
  temp_frames w' = temp_frames w /\
  record_start_time w' = record_start_time w.
Proof.
  destruct w as [s log files threads buffered t0]. destruct s.
  unfold calibrate_iteration. run_monad. cbn.
  destruct stream0 as [st|]; [|cbn; repeat split; reflexivity].
  destruct r as [|e|data]; cbn; try (repeat split; reflexivity).
  destruct (np_frombuffer data) as [e|audio]; cbn;
    [repeat split; reflexivity|].
  destruct (np_max (map np_abs16 audio)) as [e|volume]; cbn;
    repeat split; reflexivity.
Qed.

Lemma calibration_loop_cons r rest w :
  calibration_loop (r :: rest) w =
    calibration_loop rest (calibrate_iteration r w).2.
Proof.
  cbn [calibration_loop]. unfold bind.
  destruct (calibrate_iteration_frame r w) as [H _].
  destruct (calibrate_iteration r w) as [[e|[]] w1]; [discriminate|].
  reflexivity.
Qed.

Lemma calibration_loop_frame its w :
  let w' := (calibration_loop its w).2 in
  (calibration_loop its w).1 = inr tt /\
  set_noise_calibration_samples (noise_calibration_samples (self w)) (self w')
    = self w /\
  devlog w' = devlog w /\ fs w' = fs w /\ started w' = started w /\
  temp_frames w' = temp_frames w /\
  record_start_time w' = record_start_time w.
Proof.
  revert w. induction its as [|r rest IH]; intros w; cbv zeta.
  - cbn. destruct w as [s ? ? ? ? ?]. destruct s. repeat split; reflexivity.
  - rewrite calibration_loop_cons.
    destruct (calibrate_iteration_frame r w) as (_ & Hs & Hd & Hf & Ht & Hb & Hr).
    destruct (IH (calibrate_iteration r w).2) as (H1 & Hs' & Hd' & Hf' & Ht' & Hb' & Hr').
    repeat split; try congruence.
    rewrite <- Hs, <- Hs'.
    destruct (self (calibration_loop rest (calibrate_iteration r w).2).2).
    reflexivity.
Qed.

Lemma calibrate_noise_unfold its w :
  _calibrate_noise its w =
    (inr tt,
     start_listening_thread
       (upd_self (set_is_calibrated true)
          (upd_self calibrate_profile (calibration_loop its w).2))).
Proof.
  unfold _calibrate_noise. run_monad.
  destruct (calibration_loop_frame its w) as [H _].
  destruct (calibration_loop its w) as [[e|[]] w1]; [discriminate|].
  reflexivity.
Qed.

Lemma calibration_loop_settings its w :
  threshold (self (calibration_loop its w).2) = threshold (self w) /\
  noise_floor (self (calibration_loop its w).2) = noise_floor (self w).
Proof.
  destruct (calibration_loop_frame its w) as (_ & Hs & _).
  rewrite <- Hs. split; reflexivity.
Qed.

(** C6. If the calibration window ends with no sample collected,
    [_calibrate_noise] returns without raising: threshold and noise floor
    keep their configured values, the recorder is marked calibrated, and
    the listening thread is started. *)
Theorem calibration_without_samples (its : list ReadOutcome) (w : World) :
  noise_calibration_samples (self (calibration_loop its w).2) = [] ->
  let r := _calibrate_noise its w in
  r.1 = inr tt /\
  threshold (self r.2) = threshold (self w) /\
  noise_floor (self r.2) = noise_floor (self w) /\
  is_calibrated (self r.2) = true /\
  In listen_and_record_thread (started r.2).
Proof.
  intros Hnone. cbv zeta. rewrite calibrate_noise_unfold. cbn.
  destruct (calibration_loop_settings its w) as [Ht Hn].
  unfold calibrate_profile. rewrite Hnone, Ht, Hn.
  repeat split; auto.
Qed.

Lemma calibration_without_samples_witness :
  noise_calibration_samples
    (self (calibration_loop [ReadFails IOError; NotActive; ReadData []]
             started_world).2) = [] /\
  let r := _calibrate_noise [ReadFails IOError; NotActive; ReadData []]
             started_world in
  r.1 = inr tt /\
  threshold (self r.2) = 6000%R /\
  noise_floor (self r.2) = 0%R /\
  is_calibrated (self r.2) = true /\
  In listen_and_record_thread (started r.2).
Proof.
  split; [reflexivity|].
  apply (calibration_without_samples
           [ReadFails IOError; NotActive; ReadData []] started_world).
  reflexivity.
Defined.

(** Numbers: mean and deviation of a constant sequence. *)
Lemma Rsum_repeat (a : R) (n : nat) : Rsum (repeat a n) = (INR n * a)%R.
Proof.
  induction n as [|n IH]; [simpl; lra|].
  cbn [repeat Rsum fold_right]. fold (Rsum (repeat a n)).
  rewrite IH, S_INR. lra.
Qed.

Lemma mean_repeat (a : R) (n : nat) :
  (0 < n)%nat -> mean (repeat a n) = a.
Proof.
  intros Hn. unfold mean. rewrite Rsum_repeat, repeat_length.
  field. apply not_0_INR. lia.
Qed.

Lemma stddev_repeat (a : R) (n : nat) :
  (0 < n)%nat -> stddev (repeat a n) = 0%R.
Proof.
  intros Hn. unfold stddev. rewrite (mean_repeat a n Hn), repeat_length.
  replace (map (fun x => ((x - a) * (x - a))%R) (repeat a n))
    with (repeat 0%R n).
  - rewrite Rsum_repeat.
    replace (INR n * 0 / INR n)%R with 0%R by (field; apply not_0_INR; lia).
    apply sqrt_0.
  - clear Hn. induction n as [|n IH]; [reflexivity|].
    cbn [repeat map]. rewrite <- IH. f_equal. lra.
Qed.

(** numpy's statistics are the ones of the specification. *)
Lemma np_mean_is_mean xs : np_mean xs = mean xs.
Proof. reflexivity. Qed.

Lemma np_std_is_stddev xs : np_std xs = stddev xs.
Proof.
  unfold np_std, stddev, np_mean. fold (mean xs).
  rewrite length_map. do 2 f_equal.
  generalize (mean xs) as mu. intros mu.
  induction xs as [|x xs IH]; [reflexivity|].
  cbn [map Rsum fold_right]. unfold Rsum in IH. rewrite IH. f_equal.
  unfold Rabs. destruct (Rcase_abs (x - mu)); lra.
Qed.

Lemma py_max_is_Rmax a b : py_max a b = Rmax a b.
Proof.
  unfold py_max, Rmax.
  destruct (Rgt_dec b a), (Rle_dec a b); lra.
Qed.

Lemma calibrate_profile_nonempty s :
  noise_calibration_samples s <> [] ->
  let xs := map IZR (noise_calibration_samples s) in
  noise_floor (calibrate_profile s) = (mean xs + 2 * stddev xs)%R /\
  threshold (calibrate_profile s) =
    Rmax (threshold s) (noise_floor (calibrate_profile s) * 1.5).
Proof.
  intros Hne. unfold calibrate_profile.
  destruct (noise_calibration_samples s) as [|x xs] eqn:Hs; [congruence|].
  cbn [noise_floor threshold set_threshold set_noise_floor].
  rewrite py_max_is_Rmax, np_std_is_stddev, np_mean_is_mean.
  split; reflexivity.
Qed.

(** C3. With at least one sample, calibration sets the noise floor to
    mean + 2 * standard deviation of the samples and the threshold to the
    larger of the initial threshold and 1.5 times the noise floor; for [N]
    identical samples of amplitude [A] the noise floor is [A] and the
    threshold the larger of the initial threshold and [1.5 * A]. *)
Theorem calibration_computes_profile (its : list ReadOutcome) (w : World) :
  let samples := noise_calibration_samples (self (calibration_loop its w).2) in
  let s' := self (_calibrate_noise its w).2 in
  samples <> [] ->
  noise_floor s' = (mean (map IZR samples) + 2 * stddev (map IZR samples))%R /\
  threshold s' = Rmax (threshold (self w)) (noise_floor s' * 1.5) /\
  (forall (A : Z) (N : nat),
     samples = repeat A N ->
     noise_floor s' = IZR A /\
     threshold s' = Rmax (threshold (self w)) (1.5 * IZR A)).
Proof.
  cbv zeta. intros Hne. rewrite calibrate_noise_unfold. cbn.
  destruct (calibrate_profile_nonempty _ Hne) as [Hfloor Hthr].
  cbv zeta in Hfloor, Hthr.
  destruct (calibration_loop_settings its w) as [Ht _].
  rewrite Ht in Hthr.
  split; [exact Hfloor|]. split; [exact Hthr|].
  intros A N HN.
  assert (HNpos : (0 < N)%nat).
  { destruct N; [|lia]. rewrite HN in Hne. now contradiction Hne. }
  assert (Hfloor' : noise_floor (calibrate_profile
                       (self (calibration_loop its w).2)) = IZR A).
  { rewrite Hfloor, HN, map_repeat.
    rewrite (mean_repeat _ _ HNpos), (stddev_repeat _ _ HNpos). lra. }
  split; [exact Hfloor'|].
  rewrite Hthr, Hfloor'. f_equal. lra.
Qed.

Lemma calibration_computes_profile_witness :
  let its := [ReadData block55; NotActive; ReadData block55] in
  noise_calibration_samples (self (calibration_loop its started_world).2)
    = repeat 5%Z 2 /\
  noise_floor (self (_calibrate_noise its started_world).2) = 5%R /\
  threshold (self (_calibrate_noise its started_world).2)
    = Rmax 6000 (1.5 * 5).
Proof.
  split; [reflexivity|].
  destruct (calibration_computes_profile
              [ReadData block55; NotActive; ReadData block55] started_world
              ltac:(discriminate)) as (_ & _ & Hsame).
  apply (Hsame 5%Z 2%nat). reflexivity.
Defined.

(** ** The order of calibration and capture *)

Lemma keeps_calibration_refl w : keeps_calibration w w.
Proof. repeat split. Qed.

Lemma keeps_calibration_trans a b c :
  keeps_calibration a b -> keeps_calibration b c -> keeps_calibration a c.
Proof.
  unfold keeps_calibration.
  intros (? & ? & ? & ? & ?) (? & ? & ? & ? & ?). repeat split; congruence.
Qed.

(** Frame rules of the monad, for a reflexive and transitive relation. *)
Section Frames.
Variable P : World -> World -> Prop.
Hypothesis P_refl : forall w, P w w.
Hypothesis P_trans : forall a b c, P a b -> P b c -> P a c.

Lemma preserves_ret {A} (a : A) : preserves P (ret a).
Proof. intros w. apply P_refl. Qed.

Lemma preserves_raise {A} (e : exn) : preserves P (@raise World A e).
Proof. intros w. apply P_refl. Qed.

Lemma preserves_lift {A} (r : Exc A) : preserves P (lift r).
Proof. intros w. apply P_refl. Qed.

Lemma preserves_gets {A} (f : World -> A) : preserves P (gets f).
Proof. intros w. apply P_refl. Qed.

Lemma preserves_modify (f : World -> World) :
  (forall w, P w (f w)) -> preserves P (modify f).
Proof. intros H w. apply H. Qed.

Lemma preserves_bind {A B} (m : M World A) (k : A -> M World B) :
  preserves P m -> (forall a, preserves P (k a)) -> preserves P (bind m k).
Proof.
  intros Hm Hk w. unfold bind. specialize (Hm w).
  destruct (m w) as [[e|a] w1]; [exact Hm|].
  eapply P_trans; [exact Hm | apply Hk].
Qed.

Lemma preserves_try_except {A} (body : M World A) (handler : exn -> M World A) :
  preserves P body -> (forall e, preserves P (handler e)) ->
  preserves P (try_except body handler).
Proof.
  intros Hb Hh w. unfold try_except. specialize (Hb w).
  destruct (body w) as [[e|a] w1]; [|exact Hb].
  eapply P_trans; [exact Hb | apply Hh].
Qed.

Lemma preserves_when (c : bool) (body : M World unit) :
  preserves P body -> preserves P (when c body).
Proof. intros H. destruct c; [exact H | apply preserves_ret]. Qed.
End Frames.

Ltac frame_step refl trans :=
  lazymatch goal with
  | |- preserves _ (bind _ _) => apply preserves_bind; [apply trans | | intros ?]
  | |- preserves _ (try_except _ _) =>
      apply preserves_try_except; [apply trans | | intros ?]
  | |- preserves _ (when _ _) => apply preserves_when; [apply refl |]
  | |- preserves _ (ret _) => apply preserves_ret; apply refl
  | |- preserves _ (raise _) => apply preserves_raise; apply refl
  | |- preserves _ (lift _) => apply preserves_lift; apply refl
  | |- preserves _ (gets _) => apply preserves_gets; apply refl
  | |- preserves _ (modify _) =>
      apply preserves_modify; intros ?; hnf; cbn; repeat split;
      try reflexivity
  end.

Ltac frame := repeat frame_step keeps_calibration_refl keeps_calibration_trans.

Lemma save_recording_keeps_calibration o blocks :
  preserves keeps_calibration (_save_recording o blocks).
Proof.
  unfold _save_recording. destruct o as [|name|name]; frame.
Qed.

Lemma interval_check_keeps_calibration t o :
  preserves keeps_calibration (interval_check t o).
Proof.
  unfold interval_check. frame.
  apply save_recording_keeps_calibration.
Qed.

Lemma read_and_detect_keeps_calibration r peak :
  preserves keeps_calibration (read_and_detect r peak).
Proof.
  unfold read_and_detect. frame.
  match goal with
  | |- preserves _ (match ?st with _ => _ end) =>
      destruct st as [st'|]; [destruct r as [|e|data]|]
  end; frame;
    match goal with
    | |- context [speech_check ?v ?s] =>
        rewrite (speech_check_frame v s); reflexivity
    end.
Qed.

Lemma iteration_keeps_calibration it :
  preserves keeps_calibration (iteration it).
Proof.
  unfold iteration. frame.
  - apply interval_check_keeps_calibration.
  - apply read_and_detect_keeps_calibration.
  - destruct (is_IOError e); frame.
Qed.

(** [start_listening] and [stop] leave calibration and capture alone;
    [start_listening] starts at most the calibration thread. *)
Lemma start_listening_keeps dev w :
  let w' := (start_listening dev w).2 in
  threshold (self w') = threshold (self w) /\
  noise_floor (self w') = noise_floor (self w) /\
  noise_calibration_samples (self w') = noise_calibration_samples (self w) /\
  is_calibrated (self w') = is_calibrated (self w) /\
  consecutive_speech_frames (self w') = consecutive_speech_frames (self w) /\
  temp_frames w' = temp_frames w /\
  (In listen_and_record_thread (started w') <->
   In listen_and_record_thread (started w)).
Proof.
  destruct w as [s log files threads buffered t0]. destruct s.
  unfold start_listening. run_monad. cbn.
  repeat (match goal with
          | |- context [bool_decide (is_Some ?o)] => destruct o; cbn
          | |- context [dev ?h ?c] => destruct (dev h c) eqn:?; cbn
          end);
    repeat split; auto; cbn; intuition congruence.
Qed.

Lemma stop_keeps dev w : keeps_capture w (stop dev w).2.
Proof.
  destruct w as [s log files threads buffered t0]. destruct s.
  unfold stop, keeps_capture, keeps_calibration. run_monad. cbn.
  repeat (match goal with
          | |- context [bool_decide (is_Some ?o)] => destruct o; cbn
          | |- context [dev ?h ?c] => destruct (dev h c) eqn:?; cbn
          end);
    repeat split; reflexivity.
Qed.

Lemma calibrate_iteration_keeps r w :
  let w' := (calibrate_iteration r w).2 in
  threshold (self w') = threshold (self w) /\
  noise_floor (self w') = noise_floor (self w) /\
  is_calibrated (self w') = is_calibrated (self w) /\
  consecutive_speech_frames (self w') = consecutive_speech_frames (self w) /\
  temp_frames w' = temp_frames w /\
  started w' = started w.
Proof.
  destruct (calibrate_iteration_frame r w) as (_ & Hs & _ & _ & Ht & Hb & _).
  cbv zeta. rewrite <- Hs. repeat split; auto.
Qed.

(** The profile computed from untouched settings is the profile of the
    fresh recorder with the collected samples. *)
Lemma calibrate_profile_from s0 s :
  threshold s = threshold s0 ->
  noise_floor s = noise_floor s0 ->
  profile_from s0 (calibrate_profile s).
Proof.
  intros Ht Hn. unfold profile_from, calibrate_profile.
  destruct (noise_calibration_samples s) as [|x xs] eqn:Hs; cbn.
  - rewrite Hs. cbn. auto.
  - rewrite Hs. cbn. rewrite Ht. auto.
Qed.

Lemma invariant_initial s0 : invariant s0 (initial s0).
Proof.
  unfold invariant. cbn.
  repeat split; auto; try tauto; intros [|[|]]; discriminate.
Qed.

Lemma profile_from_keeps s0 w w' :
  threshold (self w') = threshold (self w) ->
  noise_floor (self w') = noise_floor (self w) ->
  noise_calibration_samples (self w') = noise_calibration_samples (self w) ->
  profile_from s0 (self w) -> profile_from s0 (self w').
Proof. unfold profile_from. intros -> -> ->. auto. Qed.

Ltac split5 := split; [|split; [|split; [|split]]].

Ltac keep_profile c Hprofile :=
  destruct c;
  first [ eapply profile_from_keeps; [| | | exact Hprofile]; assumption
        | destruct Hprofile; split; congruence ].

Lemma invariant_step dev s0 x y :
  invariant s0 x -> step dev x y -> invariant s0 y.
Proof.
  intros (Hthread & Hidle & Hflag & Hcapture & Hprofile) Hstep.
  unfold invariant in *.
  destruct Hstep; cbn [world calibration listening] in *.
  - (* start_listening *)
    destruct (start_listening_keeps dev w)
      as (Ht & Hn & Hs & Hc & Hk & Hb & Hin).
    cbv zeta in *. rewrite Hc, Hk, Hb, Hin.
    split5; auto. keep_profile c Hprofile.
  - (* stop *)
    destruct (stop_keeps dev w) as ((Ht & Hn & Hs & Hc & Hst) & Hk & Hb).
    rewrite Hc, Hk, Hb, Hst.
    split5; auto. keep_profile c Hprofile.
  - (* the calibration thread begins *)
    split5; auto.
    + intros Hin. destruct (Hthread Hin); discriminate.
    + intros [|[|]]; discriminate.
  - (* a calibration sample *)
    destruct (calibrate_iteration_keeps r w) as (Ht & Hn & Hc & Hk & Hb & Hst).
    cbv zeta in *. rewrite Ht, Hn, Hc, Hk, Hb, Hst.
    split5; auto.
  - (* the profile *)
    assert (Hsame : forall f, is_calibrated (calibrate_profile f) = is_calibrated f
                     /\ consecutive_speech_frames (calibrate_profile f)
                        = consecutive_speech_frames f).
    { intros f. unfold calibrate_profile.
      destruct (noise_calibration_samples f); split; reflexivity. }
    split5; cbn.
    + intros Hin. destruct (Hthread Hin); discriminate.
    + exact Hidle.
    + intros [|[|]]; discriminate.
    + rewrite (proj2 (Hsame _)). exact Hcapture.
    + apply calibrate_profile_from; tauto.
  - (* the flag *)
    split5; cbn.
    + intros Hin. destruct (Hthread Hin); discriminate.
    + exact Hidle.
    + reflexivity.
    + exact Hcapture.
    + exact Hprofile.
  - (* the listening thread is started *)
    assert (Hno : ~ In listen_and_record_thread (started w)).
    { intros Hin. destruct (Hthread Hin); discriminate. }
    specialize (Hidle Hno).
    split5; cbn.
    + intros _. left. reflexivity.
    + intros Hnot. exfalso. apply Hnot. left. reflexivity.
    + intros _. apply Hflag. left. reflexivity.
    + intros _. apply Hcapture. left. exact Hidle.
    + exact Hprofile.
  - (* _calibrate_noise returns *)
    split5; auto.
  - (* the listening thread begins *)
    split5; auto.
    intros Hno. contradiction.
  - (* waiting for the flag *)
    split5; auto.
  - (* the capture loop is entered *)
    split5; cbn.
    + exact Hthread.
    + intros Hno. specialize (Hidle Hno). discriminate.
    + exact Hflag.
    + intros [|]; discriminate.
    + exact Hprofile.
  - (* an iteration of the capture loop *)
    destruct (iteration_keeps_calibration it w) as (Ht & Hn & Hs & Hc & Hst).
    rewrite Hc, Hst.
    split5; auto.
    + intros [|]; discriminate.
    + keep_profile c Hprofile.
  - (* the capture loop is left *)
    split5; auto.
    + intros Hno. specialize (Hidle Hno). discriminate.
    + intros [|]; discriminate.
  - (* the caller takes a handle out of the queue *)
    split5; auto.
  - (* the caller removes a segment file *)
    split5; auto.
Qed.

(** A start that fails starts no thread. *)
Lemma start_listening_started dev w :
  started (start_listening dev w).2 =
    if start_succeeds dev (devlog w)
    then calibrate_noise_thread :: started w
    else started w.
Proof.
  destruct w as [s log files threads buffered t0]. destruct s.
  unfold start_listening, start_succeeds. run_monad. cbn.
  repeat (match goal with
          | |- context [dev ?h ?c] => destruct (dev h c) eqn:?; cbn
          | |- context [bool_decide (is_Some ?o)] => destruct o; cbn
          end);
    reflexivity.
Qed.

(** Where [start_listening] cannot succeed, the recorder never becomes
    calibrated, whatever the caller does next: neither thread ever runs.
    The loop of main.py, line 134, which waits for [is_calibrated], does
    not end. *)
Lemma failed_start_never_calibrates dev s0 x :
  (forall log, start_succeeds dev log = false) ->
  is_calibrated s0 = false ->
  reachable dev s0 x ->
  is_calibrated (self (world x)) = false /\
  started (world x) = [] /\
  calibration x = CalibrationIdle /\
  listening x = ListeningIdle.
Proof.
  intros Hdev Hs0 Hreach.
  induction Hreach as [|x y _ (Hc & Hst & Hcal & Hlis) Hstep].
  - repeat split; auto.
  - destruct Hstep; cbn [world calibration listening] in *;
      try discriminate; try (repeat split; auto; fail).
    + destruct (start_listening_keeps dev w) as (_ & _ & _ & Hk & _).
      cbv zeta in Hk. rewrite Hk, start_listening_started, Hdev. auto.
    + destruct (stop_keeps dev w) as ((_ & _ & _ & Hk & Hth) & _).
      rewrite Hk, Hth. auto.
    + rewrite Hst in H. destruct H.
    + rewrite Hst in H. destruct H.
Qed.

Lemma no_input_device_never_starts log :
  start_succeeds no_input_device log = false.
Proof. reflexivity. Qed.

Lemma reachable_invariant dev s0 x : reachable dev s0 x -> invariant s0 x.
Proof.
  induction 1 as [|x y _ IH Hstep].
  - apply invariant_initial.
  - exact (invariant_step dev s0 x y IH Hstep).
Qed.

(** C9, as the code has it.  In every run, the capture loop is entered
    only when [_calibrate_noise] has executed its last statement, the
    start of the listening thread on line 112: the noise profile has been
    derived from the collected samples and [is_calibrated] is set.  The
    function itself need not have returned by then.  Conversely, until
    line 112 has run the listening thread does not exist, no block has
    been buffered and the speech detector has not run. *)
Theorem capture_only_after_calibration
    (dev : Device) (s0 : AudioRecorder) (x : System) :
  reachable dev s0 x ->
  (listening x = ListeningCapturing ->
   (calibration x = CalibrationSpawned \/ calibration x = CalibrationReturned) /\
   is_calibrated (self (world x)) = true /\
   profile_from s0 (self (world x))) /\
  (calibration x <> CalibrationSpawned ->
   calibration x <> CalibrationReturned ->
   listening x = ListeningIdle /\
   temp_frames (world x) = [] /\
   consecutive_speech_frames (self (world x)) = consecutive_speech_frames s0).
Proof.
  intros Hreach.
  destruct (reachable_invariant dev s0 x Hreach)
    as (Hthread & Hidle & Hflag & Hcapture & Hprofile).
  cbv zeta in *.
  split.
  - intros Hl.
    assert (Hin : In listen_and_record_thread (started (world x))).
    { destruct (in_dec Thread_eq_dec listen_and_record_thread
                (started (world x)))
        as [Hin|Hno]; [exact Hin|].
      specialize (Hidle Hno). congruence. }
    specialize (Hthread Hin).
    split; [exact Hthread|]. split; [apply Hflag; tauto|].
    destruct Hthread as [Hc|Hc]; rewrite Hc in Hprofile; exact Hprofile.
  - intros Hc1 Hc2.
    assert (Hl : listening x = ListeningIdle) by (apply Hidle; tauto).
    split; [exact Hl|]. apply Hcapture. left. exact Hl.
Qed.

Lemma spawned_system_reachable :
  reachable tolerant_device default_recorder
    (mkSystem calibrated_world true CalibrationSpawned ListeningIdle).
Proof.
  unfold calibrated_world.
  eapply reachable_step; [|apply step_calibration_spawn].
  eapply reachable_step; [|apply step_calibration_flag].
  eapply reachable_step; [|apply step_calibration_profile].
  eapply reachable_step;
    [|apply (step_calibration_sample _ _ _ _ (ReadData block55))].
  eapply reachable_step; [|apply step_calibration_begin; left; reflexivity].
  eapply reachable_step; [|apply step_start].
  apply reachable_initial.
Qed.

Lemma capturing_system_reachable :
  reachable tolerant_device default_recorder capturing_system.
Proof.
  unfold capturing_system.
  eapply reachable_step; [|apply step_listening_enter; reflexivity].
  eapply reachable_step; [|apply step_listening_begin; left; reflexivity].
  eapply reachable_step; [|apply step_calibration_return].
  exact spawned_system_reachable.
Qed.

Lemma early_capture_system_reachable :
  reachable tolerant_device default_recorder early_capture_system.
Proof.
  unfold early_capture_system.
  eapply reachable_step; [|apply step_listening_iteration; reflexivity].
  eapply reachable_step; [|apply step_listening_enter; reflexivity].
  eapply reachable_step; [|apply step_listening_begin; left; reflexivity].
  exact spawned_system_reachable.
Qed.

Lemma capture_only_after_calibration_witness :
  reachable tolerant_device default_recorder early_capture_system /\
  listening early_capture_system = ListeningCapturing /\
  (calibration early_capture_system = CalibrationSpawned \/
   calibration early_capture_system = CalibrationReturned) /\
  is_calibrated (self (world early_capture_system)) = true /\
  profile_from default_recorder (self (world early_capture_system)).
Proof.
  split; [exact early_capture_system_reachable|].
  split; [reflexivity|].
  apply (capture_only_after_calibration tolerant_device default_recorder
           early_capture_system early_capture_system_reachable).
  reflexivity.
Defined.

(** ** The detector inside the capture loop *)

Lemma keeps_detector_refl w : keeps_detector w w.
Proof. repeat split. Qed.

Lemma keeps_detector_trans a b c :
  keeps_detector a b -> keeps_detector b c -> keeps_detector a c.
Proof.
  unfold keeps_detector.
  intros (? & ? & ? & ? & ?) (? & ? & ? & ? & ?). repeat split; congruence.
Qed.

Ltac frame_detector :=
  repeat frame_step keeps_detector_refl keeps_detector_trans.

Lemma save_recording_keeps_detector o blocks :
  preserves keeps_detector (_save_recording o blocks).
Proof.
  unfold _save_recording. destruct o as [|name|name]; frame_detector.
Qed.

Lemma interval_check_keeps_detector t o :
  preserves keeps_detector (interval_check t o).
Proof.
  unfold interval_check. frame_detector.
  apply save_recording_keeps_detector.
Qed.

(** The interval check raises only when no temporary file can be made. *)
Lemma interval_check_returns t o w :
  o <> TempFileFails -> (interval_check t o w).1 = inr tt.
Proof.
  intros Ho. destruct (interval_reached t (self w)) eqn:Hreached.
  - rewrite (interval_check_reached _ _ _ Hreached).
    destruct (temp_frames w) as [|b bs]; [reflexivity|].
    destruct o as [|name|name]; [congruence| |].
    + rewrite (save_dropped name) by auto. reflexivity.
    + destruct (wave_header (self w)) as [e|hdr] eqn:Hhdr.
      * rewrite (save_dropped name) by eauto. reflexivity.
      * rewrite (save_written _ _ _ _ Hhdr). reflexivity.
  - rewrite (interval_check_not_reached _ _ _ Hreached). reflexivity.
Qed.

(** The check depends on the threshold, the debounce count and the
    counter only. *)
Lemma speech_check_respects v s s' :
  threshold s' = threshold s ->
  speech_frames_threshold s' = speech_frames_threshold s ->
  consecutive_speech_frames s' = consecutive_speech_frames s ->
  (speech_check v s').2 = (speech_check v s).2 /\
  consecutive_speech_frames (speech_check v s').1 =
    consecutive_speech_frames (speech_check v s).1.
Proof.
  intros Ht Hd Hc. unfold speech_check. rewrite Ht.
  destruct (Rgt_dec v (threshold s)); cbn; rewrite ?Hd, ?Hc; auto.
Qed.

Lemma speech_run_respects vs s s' :
  threshold s' = threshold s ->
  speech_frames_threshold s' = speech_frames_threshold s ->
  consecutive_speech_frames s' = consecutive_speech_frames s ->
  (speech_run vs s').2 = (speech_run vs s).2.
Proof.
  revert s s'. induction vs as [|v vs IH]; intros s s' Ht Hd Hc;
    [reflexivity|].
  rewrite !speech_run_cons. cbn [snd].
  destruct (speech_check_respects v s s' Ht Hd Hc) as [-> Hc'].
  f_equal. apply IH; [| |exact Hc'].
  - destruct (speech_check_threshold v s) as [-> _].
    destruct (speech_check_threshold v s') as [-> _]. exact Ht.
  - destruct (speech_check_threshold v s) as [_ ->].
    destruct (speech_check_threshold v s') as [_ ->]. exact Hd.
Qed.

(** An iteration of [_listen_and_record] that reads a block runs the
    detector's check on its filtered peak. *)
Lemma iteration_runs_speech_check it v w :
  is_Some (stream (self w)) ->
  reads_block it v ->
  (iteration it w).1 = inr (speech_check v (self w)).2 /\
  threshold (self (iteration it w).2) = threshold (self w) /\
  speech_frames_threshold (self (iteration it w).2) =
    speech_frames_threshold (self w) /\
  consecutive_speech_frames (self (iteration it w).2) =
    consecutive_speech_frames (speech_check v (self w)).1 /\
  stream (self (iteration it w).2) = stream (self w) /\
  running (self (iteration it w).2) = running (self w).
Proof.
  intros [st Hst] (Ho & data & audio & Hread & Haudio & Hpeak).
  pose proof (interval_check_returns (now it) _ w Ho) as Hret.
  destruct (interval_check_keeps_detector (now it) (save_outcome it) w)
    as (Ht & Hd & Hc & Hs & Hr).
  set (r := interval_check (now it) (save_outcome it) w) in *.
  assert (E : iteration it w =
                (inr (speech_check v (self r.2)).2,
                 upd_self (fun s => (speech_check v s).1)
                   (set_temp_frames (temp_frames r.2 ++ [data]) r.2))).
  { unfold iteration, try_except, bind. fold r.
    destruct r as [[e|[]] w1]; [discriminate|]. cbn [snd] in *.
    unfold read_and_detect. run_monad. cbn.
    rewrite Hs, Hst, Hread, Haudio, Hpeak. reflexivity. }
  rewrite E. cbn [fst snd].
  destruct (speech_check_respects v (self w) (self r.2) Ht Hd Hc) as [Hb Hk].
  rewrite Hb.
  change (self (upd_self (fun s => (speech_check v s).1)
                  (set_temp_frames (temp_frames r.2 ++ [data]) r.2)))
    with (speech_check v (self r.2)).1.
  rewrite Hk, (speech_check_frame v (self r.2)). cbn.
  repeat split; auto.
Qed.

(** Over iterations that each read a block, the loop reports what the
    detector reports on the sequence of their peaks. *)
Lemma listen_loop_reports its vs w :
  running (self w) = true ->
  is_Some (stream (self w)) ->
  Forall2 reads_block its vs ->
  (listen_loop its w).1 = inr (speech_run vs (self w)).2.
Proof.
  intros Hrun Hst Hall. revert w Hrun Hst.
  induction Hall as [|it v its vs Hit _ IH]; intros w Hrun Hst;
    [reflexivity|].
  cbn [listen_loop]. unfold bind at 1. unfold gets. rewrite Hrun.
  destruct (iteration_runs_speech_check it v w Hst Hit)
    as (Hres & Ht & Hd & Hc & Hs & Hr).
  unfold bind at 1.
  destruct (iteration it w) as [[e|detected] w1]; [discriminate|].
  cbn [fst snd] in *. injection Hres as ->.
  specialize (IH w1). rewrite Hr, Hs in IH. specialize (IH Hrun Hst).
  unfold bind, ret.
  destruct (listen_loop its w1) as [[e|others] w2]; [discriminate|].
  cbn [fst] in *. injection IH as ->.
  cbn [fst]. rewrite speech_run_cons. cbn [snd]. do 2 f_equal.
  destruct (speech_check_threshold v (self w)) as [Ht' Hd'].
  apply speech_run_respects; congruence.
Qed.

(** ** What the detector reports *)

Lemma trailing_above_snoc thr vols v :
  trailing_above thr (vols ++ [v]) =
    if Rgt_dec v thr then S (trailing_above thr vols) else 0%nat.
Proof. unfold trailing_above. rewrite rev_unit. reflexivity. Qed.

Lemma trailing_above_le thr vols :
  (trailing_above thr vols <= length vols)%nat.
Proof.
  unfold trailing_above. rewrite <- (length_rev vols).
  induction (rev vols) as [|v l IH]; simpl; [lia|].
  destruct (Rgt_dec v thr); lia.
Qed.

(** The counter of the recorder is the count read off the blocks. *)
Lemma speech_run_counter vols s :
  consecutive_speech_frames (speech_run vols s).1 =
    consecutive_count (threshold s) (consecutive_speech_frames s) vols.
Proof.
  induction vols as [|v vols IH] using rev_ind.
  - unfold consecutive_count, trailing_above. simpl. lia.
  - rewrite speech_run_app, speech_run_cons. cbn [fst snd speech_run].
    set (s1 := (speech_run vols s).1) in *.
    assert (Hthr : threshold s1 = threshold s) by apply speech_run_threshold.
    unfold consecutive_count in *. cbv zeta in *.
    rewrite trailing_above_snoc, length_app. simpl length.
    pose proof (trailing_above_le (threshold s) vols) as Hle.
    unfold speech_check. rewrite Hthr.
    destruct (Rgt_dec v (threshold s)); cbn [fst consecutive_speech_frames
      set_consecutive_speech_frames].
    + rewrite IH.
      destruct (trailing_above (threshold s) vols =? length vols)%nat eqn:E.
      * apply Nat.eqb_eq in E.
        replace (S (trailing_above (threshold s) vols)
                 =? length vols + 1)%nat with true
          by (symmetry; apply Nat.eqb_eq; lia).
        lia.
      * apply Nat.eqb_neq in E.
        replace (S (trailing_above (threshold s) vols)
                 =? length vols + 1)%nat with false
          by (symmetry; apply Nat.eqb_neq; lia).
        lia.
    + replace (0 =? length vols + 1)%nat with false
        by (symmetry; apply Nat.eqb_neq; lia).
      reflexivity.
Qed.

(** C2. Whatever the counter shows at the start, on every block of every
    sequence the detector reports speech exactly when the block is above
    the threshold and the count of consecutive above-threshold blocks,
    read off the blocks fed so far, reaches [speech_frames_threshold]
    with it; the counter of the recorder is that count.  So exactly
    [speech_frames_threshold] above-threshold blocks fed when the counter
    is zero (at the start, or after any blocks that left it at zero) are
    reported on the last one only; [speech_frames_threshold - 1] such
    blocks followed by one below-threshold block report nothing; and a
    below-threshold block sets the counter to zero at once. *)
Theorem speech_detector_reports (s : AudioRecorder) :
  (forall pre v post,
     nth (length pre) (speech_run (pre ++ v :: post) s).2 false = true <->
     above s v /\
     consecutive_count (threshold s) (consecutive_speech_frames s) (pre ++ [v])
       = speech_frames_threshold s) /\
  (forall vols,
     consecutive_speech_frames (speech_run vols s).1 =
       consecutive_count (threshold s) (consecutive_speech_frames s) vols) /\
  (forall pre vols,
     consecutive_speech_frames (speech_run pre s).1 = 0%Z ->
     (1 <= speech_frames_threshold s)%Z ->
     Z.of_nat (length vols) = speech_frames_threshold s ->
     Forall (above s) vols ->
     skipn (length pre) (speech_run (pre ++ vols) s).2 =
       repeat false (length vols - 1) ++ [true]) /\
  (forall pre vols v,
     consecutive_speech_frames (speech_run pre s).1 = 0%Z ->
     Z.of_nat (length vols) = (speech_frames_threshold s - 1)%Z ->
     Forall (above s) vols ->
     ~ above s v ->
     skipn (length pre) (speech_run (pre ++ vols ++ [v]) s).2 =
       repeat false (length vols + 1) /\
     consecutive_speech_frames (speech_run (pre ++ vols ++ [v]) s).1 = 0%Z) /\
  (forall pre v,
     ~ above s v ->
     (speech_check v (speech_run pre s).1).2 = false /\
     consecutive_speech_frames (speech_check v (speech_run pre s).1).1 = 0%Z).
Proof.
  split; [|split; [|split; [|split]]].
  - intros pre v post.
    rewrite <- speech_run_counter.
    rewrite !speech_run_app. cbn [fst snd].
    rewrite app_nth2 by (rewrite speech_run_length; lia).
    rewrite speech_run_length, Nat.sub_diag, !speech_run_cons. simpl.
    set (s1 := (speech_run pre s).1).
    assert (Hthr : threshold s1 = threshold s) by apply speech_run_threshold.
    assert (Hsft : speech_frames_threshold s1 = speech_frames_threshold s)
      by apply speech_run_threshold.
    destruct (Rgt_dec v (threshold s1)) as [Hv | Hv].
    + assert (Ha : above s1 v) by exact Hv.
      rewrite (speech_check_above _ _ Ha). simpl.
      rewrite Z.eqb_eq, Hsft. unfold above. rewrite <- Hthr. tauto.
    + assert (Ha : ~ above s1 v) by exact Hv.
      rewrite (speech_check_below _ _ Ha). simpl.
      unfold above. rewrite <- Hthr. split; [discriminate | tauto].
  - intros vols. apply speech_run_counter.
  - intros pre vols Hc H1 Hlen Hall.
    rewrite (speech_run_app pre). cbn [fst snd].
    rewrite skipn_app, speech_run_length, Nat.sub_diag, skipn_O.
    rewrite skipn_all2 by (rewrite speech_run_length; lia).
    set (s1 := (speech_run pre s).1) in *.
    assert (Hsft : speech_frames_threshold s1 = speech_frames_threshold s)
      by apply speech_run_threshold.
    assert (Hall1 : Forall (above s1) vols).
    { eapply Forall_impl; [exact Hall|]. intros x Hx. now apply above_run. }
    destruct vols as [|v0 vols0] using rev_ind; [simpl in Hlen; lia|].
    clear IHvols0.
    rewrite length_app in *. simpl length in *.
    apply Forall_app in Hall1 as [Hfront Hlast].
    apply Forall_cons in Hlast as [Hlast _].
    destruct (speech_run_short vols0 s1) as [Hr Hk];
      [lia | lia | exact Hfront |].
    rewrite speech_run_app, speech_run_cons. cbn [fst snd speech_run].
    assert (Ha : above (speech_run vols0 s1).1 v0) by now apply above_run.
    rewrite (speech_check_above _ _ Ha), Hr, Hk. cbn [fst snd app].
    destruct (speech_run_threshold vols0 s1) as [_ ->].
    replace (consecutive_speech_frames s1 + Z.of_nat (length vols0) + 1
             =? speech_frames_threshold s1)%Z with true
      by (symmetry; apply Z.eqb_eq; lia).
    replace (length vols0 + 1 - 1)%nat with (length vols0) by lia.
    reflexivity.
  - intros pre vols v Hc Hlen Hall Hv.
    rewrite (speech_run_app pre). cbn [fst snd].
    rewrite skipn_app, speech_run_length, Nat.sub_diag, skipn_O.
    rewrite skipn_all2 by (rewrite speech_run_length; lia).
    set (s1 := (speech_run pre s).1) in *.
    assert (Hsft : speech_frames_threshold s1 = speech_frames_threshold s)
      by apply speech_run_threshold.
    assert (Hall1 : Forall (above s1) vols).
    { eapply Forall_impl; [exact Hall|]. intros x Hx. now apply above_run. }
    assert (Hv1 : ~ above s1 v) by (unfold s1; now rewrite above_run).
    destruct (speech_run_short vols s1) as [Hr Hk]; [lia | lia | exact Hall1 |].
    rewrite speech_run_app, speech_run_cons. cbn [fst snd].
    assert (Hb : ~ above (speech_run vols s1).1 v) by now rewrite above_run.
    rewrite (speech_check_below _ _ Hb), Hr. simpl.
    split; [|reflexivity].
    now rewrite repeat_app.
  - intros pre v Hv.
    assert (Hb : ~ above (speech_run pre s).1 v) by now rewrite above_run.
    now rewrite (speech_check_below _ _ Hb).
Qed.

(** C10. A run of [k >= speech_frames_threshold] consecutive
    above-threshold blocks that starts with the counter at zero (at the
    start, or right after a below-threshold block) is reported exactly
    once, on its [speech_frames_threshold]-th block; the counter goes on
    to [k] without a second report. *)
Theorem speech_reported_once_per_run (s : AudioRecorder) (pre vols : list R) :
  consecutive_speech_frames (speech_run pre s).1 = 0%Z ->
  (1 <= speech_frames_threshold s)%Z ->
  (speech_frames_threshold s <= Z.of_nat (length vols))%Z ->
  Forall (above s) vols ->
  skipn (length pre) (speech_run (pre ++ vols) s).2 =
    repeat false (Z.to_nat (speech_frames_threshold s) - 1)
    ++ [true]
    ++ repeat false (length vols - Z.to_nat (speech_frames_threshold s)) /\
  consecutive_speech_frames (speech_run (pre ++ vols) s).1 =
    Z.of_nat (length vols).
Proof.
  intros Hc H1 Hk Hall.
  rewrite speech_run_app. cbn [fst snd].
  rewrite skipn_app, speech_run_length, Nat.sub_diag.
  rewrite skipn_all2 by (rewrite speech_run_length; lia). simpl.
  set (s1 := (speech_run pre s).1) in *.
  assert (Hsft : speech_frames_threshold s1 = speech_frames_threshold s)
    by apply speech_run_threshold.
  assert (Hall1 : Forall (above s1) vols).
  { eapply Forall_impl; [exact Hall|]. intros v Hv. now apply above_run. }
  clearbody s1. rewrite <- Hsft in *. clear Hsft Hall s pre. rename s1 into s.
  set (n := (Z.to_nat (speech_frames_threshold s) - 1)%nat).
  assert (Hsplit : vols = firstn n vols ++ skipn n vols)
    by (symmetry; apply firstn_skipn).
  assert (Hfl : length (firstn n vols) = n)
    by (rewrite length_firstn; lia).
  revert Hsplit Hfl. generalize (firstn n vols) as a.
  destruct (skipn n vols) as [|v rest]; intros a Hsplit Hfl; subst vols.
  { exfalso. rewrite length_app in Hk. simpl in Hk. lia. }
  apply Forall_app in Hall1 as [Hpre Hpost].
  apply Forall_cons in Hpost as [Hv Hrest].
  rewrite speech_run_app, speech_run_cons. cbn [fst snd].
  destruct (speech_run_short a s) as [Hr Hcount];
    [lia | lia | exact Hpre |].
  set (s2 := (speech_run a s).1) in *.
  assert (Hsft2 : speech_frames_threshold s2 = speech_frames_threshold s)
    by apply speech_run_threshold.
  assert (Hv2 : above s2 v) by now apply above_run.
  rewrite (speech_check_above _ _ Hv2). cbn [fst snd].
  destruct (speech_run_past rest
              (set_consecutive_speech_frames
                 (consecutive_speech_frames s2 + 1) s2)) as [Hr3 Hc3].
  { simpl. lia. }
  { eapply Forall_impl; [exact Hrest|]. intros x Hx.
    unfold above in *. simpl.
    destruct (speech_run_threshold a s) as [E _].
    fold s2 in E. now rewrite E. }
  rewrite Hr, Hr3, Hc3, Hfl. simpl.
  replace (consecutive_speech_frames s2 + 1 =? speech_frames_threshold s2)%Z
    with true by (symmetry; apply Z.eqb_eq; lia).
  rewrite length_app. simpl length. unfold s2 in *. subst n.
  split.
  - rewrite skipn_O. do 3 f_equal. lia.
  - simpl. lia.
Qed.

Lemma above_default_loud : above default_recorder loud.
Proof. unfold above, loud, quiet. simpl. lra. Qed.

Lemma not_above_default_quiet : ~ above default_recorder quiet.
Proof. unfold above, loud, quiet. simpl. lra. Qed.

Lemma speech_detector_reports_witness :
  skipn (length [loud; quiet])
    (speech_run ([loud; quiet] ++ [loud; loud; loud]) default_recorder).2
    = repeat false (3 - 1) ++ [true] /\
  (skipn (length [loud; quiet])
     (speech_run ([loud; quiet] ++ [loud; loud] ++ [quiet]) default_recorder).2
     = repeat false (2 + 1) /\
   consecutive_speech_frames
     (speech_run ([loud; quiet] ++ [loud; loud] ++ [quiet]) default_recorder).1
     = 0%Z).
Proof.
  assert (Hzero : consecutive_speech_frames
                    (speech_run [loud; quiet] default_recorder).1 = 0%Z).
  { simpl.
    rewrite (speech_check_above _ _ above_default_loud). cbn [fst].
    rewrite speech_check_below; [reflexivity|].
    exact not_above_default_quiet. }
  split.
  - apply (proj1 (proj2 (proj2 (speech_detector_reports default_recorder)))
             [loud; quiet] [loud; loud; loud]).
    + exact Hzero.
    + simpl. lia.
    + reflexivity.
    + repeat constructor; apply above_default_loud.
  - apply (proj1 (proj2 (proj2 (proj2
             (speech_detector_reports default_recorder))))
             [loud; quiet] [loud; loud] quiet).
    + exact Hzero.
    + reflexivity.
    + repeat constructor; apply above_default_loud.
    + apply not_above_default_quiet.
Defined.

Lemma speech_reported_once_per_run_witness :
  skipn 0 (speech_run ([] ++ [loud; loud; loud; loud]) default_recorder).2 =
    [false; false; true; false] /\
  consecutive_speech_frames
    (speech_run ([] ++ [loud; loud; loud; loud]) default_recorder).1 = 4%Z.
Proof.
  apply (speech_reported_once_per_run default_recorder []
           [loud; loud; loud; loud]).
  - reflexivity.
  - simpl. lia.
  - simpl. lia.
  - repeat constructor; apply above_default_loud.
Defined.

(** ** The band handed to the filter design *)

(** Valid cut-offs are handed to [butter] as an increasing pair strictly
    between 0 and 1. *)
Lemma normalized_band_valid (lowcut highcut fs : R) :
  (0 < lowcut)%R -> (lowcut < highcut)%R -> (highcut < fs / 2)%R ->
  let band := normalized_band lowcut highcut fs in
  (0 < band.1)%R /\ (band.1 < band.2)%R /\ (band.2 < 1)%R.
Proof.
  intros H0 H1 H2. unfold normalized_band. cbn [fst snd].
  assert (Hn : (0 < 0.5 * fs)%R) by lra.
  repeat split.
  - apply Rdiv_lt_0_compat; lra.
  - unfold Rdiv. apply Rmult_lt_compat_r; [apply Rinv_0_lt_compat|]; lra.
  - apply (Rmult_lt_reg_r (0.5 * fs)); [exact Hn|].
    unfold Rdiv. rewrite Rmult_assoc, Rinv_l by lra. lra.
Qed.

Lemma butter_valid sp N low high :
  (0 <= N)%Z -> (0 < low)%R -> (low < high)%R -> (high < 1)%R ->
  butter sp N low high =
    inr (map (numerator sp N low high) (seq 0 (Z.to_nat (2 * N + 1))),
         map (denominator sp N low high) (seq 0 (Z.to_nat (2 * N + 1)))).
Proof.
  intros HN H0 H1 H2. unfold butter.
  destruct (Z.ltb_spec N 0); [lia|].
  destruct (Rlt_dec 0 low); [|contradiction].
  destruct (Rlt_dec low high); [|contradiction].
  destruct (Rlt_dec high 1); [|contradiction].
  reflexivity.
Qed.

(** The design of a valid band succeeds and leaves the recorder alone. *)
Lemma butter_bandpass_valid sp lowcut highcut fs order w :
  (0 < lowcut)%R -> (lowcut < highcut)%R -> (highcut < fs / 2)%R ->
  (0 <= order)%Z ->
  let band := normalized_band lowcut highcut fs in
  let ks := seq 0 (Z.to_nat (2 * order + 1)) in
  _butter_bandpass sp lowcut highcut fs order w =
    (inr (map (numerator sp order band.1 band.2) ks,
          map (denominator sp order band.1 band.2) ks), w).
Proof.
  intros H0 H1 H2 HN. cbv zeta. unfold _butter_bandpass.
  destruct (Req_dec_T (0.5 * fs) 0) as [E|_]; [lra|].
  destruct (normalized_band_valid lowcut highcut fs H0 H1 H2) as (B0 & B1 & B2).
  cbv zeta in *. unfold lift.
  rewrite butter_valid by assumption. reflexivity.
Qed.

(** The default design has 11 coefficients on each side, so [filtfilt]
    pads by 33 samples. *)
Lemma filter_audio_unfolds sp data w :
  exists b a,
    length b = 11%nat /\ length a = 11%nat /\
    _filter_audio sp data w = (filtfilt sp b a (map IZR data), w).
Proof.
  unfold _filter_audio, bind.
  rewrite butter_bandpass_valid by lra || lia.
  eexists _, _. split; [|split; [|reflexivity]]; reflexivity.
Qed.




(** * Further properties of the recorder *)

(** ** What the capture loop writes *)

Lemma writes_capture_only_refl w : writes_capture_only w w.
Proof. repeat split. Qed.

Lemma writes_capture_only_trans a b c :
  writes_capture_only a b -> writes_capture_only b c ->
  writes_capture_only a c.
Proof.
  unfold writes_capture_only. intros H1 H2.
  decompose [and] H1. decompose [and] H2. repeat split; congruence.
Qed.

Ltac frame_capture :=
  repeat frame_step writes_capture_only_refl writes_capture_only_trans.

Lemma save_recording_writes_capture_only o blocks :
  preserves writes_capture_only (_save_recording o blocks).
Proof.
  unfold _save_recording. destruct o as [|name|name]; frame_capture.
Qed.

Lemma interval_check_writes_capture_only t o :
  preserves writes_capture_only (interval_check t o).
Proof.
  unfold interval_check. frame_capture.
  apply save_recording_writes_capture_only.
Qed.

Lemma read_and_detect_writes_capture_only r peak :
  preserves writes_capture_only (read_and_detect r peak).
Proof.
  unfold read_and_detect. frame_capture.
  match goal with
  | |- preserves _ (match ?st with _ => _ end) =>
      destruct st as [st'|]; [destruct r as [|e|data]|]
  end; frame_capture;
    match goal with
    | |- context [speech_check ?v ?s] =>
        rewrite (speech_check_frame v s); reflexivity
    end.
Qed.

Lemma iteration_keeps_settings (it : Iteration) :
  preserves writes_capture_only (iteration it).
Proof.
  unfold iteration. frame_capture.
  - apply interval_check_writes_capture_only.
  - apply read_and_detect_writes_capture_only.
  - destruct (is_IOError e); frame_capture.
Qed.

(** X1. An iteration of the capture loop changes no attribute of the
    recorder other than the queue, the interval timer and the detector's
    counter, makes no life-cycle call on the device and starts no thread,
    whether it runs to its end or into one of its handlers. *)
Theorem iteration_writes_capture_only (it : Iteration) (w : World) :
  writes_capture_only w (iteration it w).2.
Proof. apply iteration_keeps_settings. Qed.

Lemma iteration_returns it w : exists detected, (iteration it w).1 = inr detected.
Proof.
  unfold iteration, try_except.
  match goal with
  | |- context [match ?body w with _ => _ end] =>
      destruct (body w) as [[e|detected] w1]
  end.
  - destruct (is_IOError e); eexists; reflexivity.
  - eexists; reflexivity.
Qed.

Lemma listen_loop_cons it rest w :
  running (self w) = true ->
  exists detected others,
    (iteration it w).1 = inr detected /\
    (listen_loop rest (iteration it w).2).1 = inr others /\
    listen_loop (it :: rest) w =
      (inr (detected :: others), (listen_loop rest (iteration it w).2).2).
Proof.
  intros Hrun. revert it w Hrun.
  induction rest as [|it' rest IH]; intros it w Hrun.
  - destruct (iteration_returns it w) as [detected Hd].
    exists detected, []. split; [exact Hd|]. split; [reflexivity|].
    cbn [listen_loop]. unfold bind, gets, ret. rewrite Hrun.
    destruct (iteration it w) as [[e|b] w1]; [discriminate|].
    cbn in Hd. injection Hd as ->. reflexivity.
  - destruct (iteration_returns it w) as [detected Hd].
    set (w1 := (iteration it w).2).
    assert (Hrun1 : running (self w1) = running (self w))
      by apply (iteration_keeps_settings it w).
    rewrite Hrun in Hrun1.
    destruct (IH it' w1 Hrun1) as (d' & o' & _ & _ & Hloop).
    exists detected, (d' :: o'). split; [exact Hd|].
    split; [now rewrite Hloop|].
    change (listen_loop (it :: it' :: rest) w)
      with (bind (gets (fun w => running (self w)))
              (fun go => if go then
                 bind (iteration it) (fun detected =>
                   bind (listen_loop (it' :: rest)) (fun others =>
                     ret (detected :: others)))
               else ret []) w).
    unfold bind at 1. unfold gets. rewrite Hrun. unfold bind at 1.
    fold w1. destruct (iteration it w) as [[e|b] w1'] eqn:Hit;
      [discriminate|].
    cbn in Hd. injection Hd as ->. subst w1. cbn [snd] in *.
    unfold bind at 1. rewrite Hloop. reflexivity.
Qed.

Lemma listen_loop_stopped its w :
  running (self w) = false -> listen_loop its w = (inr [], w).
Proof.
  intros Hrun. destruct its as [|it rest]; [reflexivity|].
  cbn [listen_loop]. unfold bind, gets, ret. now rewrite Hrun.
Qed.

Lemma listen_loop_writes_capture_only its :
  preserves writes_capture_only (listen_loop its).
Proof.
  induction its as [|it rest IH]; intros w.
  - apply writes_capture_only_refl.
  - destruct (running (self w)) eqn:Hrun.
    + destruct (listen_loop_cons it rest w Hrun) as (d & o & _ & _ & ->).
      cbn [snd]. eapply writes_capture_only_trans.
      * apply (iteration_keeps_settings it w).
      * apply IH.
    + rewrite (listen_loop_stopped _ _ Hrun).
      apply writes_capture_only_refl.
Qed.

(** X2. The capture loop never raises, whatever the stream, the file
    system and the filter do in any iteration: while [running] is set it
    carries out every iteration and yields one report for each; when
    [running] is cleared it does nothing at all. *)
Theorem capture_loop_never_raises (its : list Iteration) (w : World) :
  exists reports,
    (listen_loop its w).1 = inr reports /\
    (running (self w) = true -> length reports = length its) /\
    (running (self w) = false ->
     reports = [] /\ (listen_loop its w).2 = w).
Proof.
  destruct (running (self w)) eqn:Hrun.
  - assert (H : exists reports,
               (listen_loop its w).1 = inr reports /\
               length reports = length its).
    { revert w Hrun. induction its as [|it rest IH]; intros w Hrun.
      - exists []. split; reflexivity.
      - destruct (listen_loop_cons it rest w Hrun) as (d & o & _ & Ho & ->).
        assert (Hrun1 : running (self (iteration it w).2) = true).
        { rewrite <- Hrun. apply (iteration_keeps_settings it w). }
        destruct (IH _ Hrun1) as (o' & Ho' & Hlen).
        rewrite Ho in Ho'. injection Ho' as <-.
        exists (d :: o). split; [reflexivity | simpl; now rewrite Hlen]. }
    destruct H as (reports & Hr & Hlen).
    exists reports. split; [exact Hr|]. split; [auto | discriminate].
  - rewrite (listen_loop_stopped _ _ Hrun).
    exists []. split; [reflexivity|]. split; [discriminate | auto].
Qed.

(** X3. Once [stop] has been called the capture loop carries out no
    further iteration: nothing more is read, buffered, written or
    enqueued. *)
Theorem stop_ends_capture (dev : Device) (its : list Iteration) (w : World) :
  listen_loop its (stop dev w).2 = (inr [], (stop dev w).2).
Proof.
  apply listen_loop_stopped. apply (stop_once dev w).
Qed.

(** ** What ends up in a segment *)

Lemma speech_check_keeps_rest v s :
  audio_queue (speech_check v s).1 = audio_queue s /\
  last_recording_time (speech_check v s).1 = last_recording_time s.
Proof. rewrite speech_check_frame. split; reflexivity. Qed.

(** Reading after the interval check: the block is buffered before it is
    decoded and filtered, so it stays buffered when either step raises. *)
Lemma read_after_check it w1 :
  let w' := (try_except (read_and_detect (read_outcome it) (filtered_peak it))
               (fun e => if is_IOError e then ret false else ret false) w1).2 in
  temp_frames w' =
    temp_frames w1 ++ match stream (self w1) with
                     | Some _ => block_of it
                     | None => []
                     end /\
  fs w' = fs w1 /\
  audio_queue (self w') = audio_queue (self w1) /\
  last_recording_time (self w') = last_recording_time (self w1).
Proof.
  unfold read_and_detect, block_of. run_monad. cbn.
  destruct (stream (self w1)) as [st|]; cbn.
  - destruct (read_outcome it) as [|e|data]; cbn.
    + rewrite app_nil_r. auto.
    + destruct (is_IOError e); cbn; rewrite app_nil_r; auto.
    + destruct (np_frombuffer data) as [e|audio]; cbn.
      { destruct (is_IOError e); cbn; auto. }
      destruct (filtered_peak it) as [e|v]; cbn.
      { destruct (is_IOError e); cbn; auto. }
      destruct (speech_check_keeps_rest v (self w1)) as [-> ->]. auto.
  - rewrite app_nil_r.
    destruct (read_outcome it); cbn; auto.
Qed.

Lemma iteration_not_reached it w :
  interval_reached (now it) (self w) = false ->
  let w' := (iteration it w).2 in
  temp_frames w' =
    temp_frames w ++ match stream (self w) with
                    | Some _ => block_of it
                    | None => []
                    end /\
  fs w' = fs w /\
  audio_queue (self w') = audio_queue (self w) /\
  last_recording_time (self w') = last_recording_time (self w).
Proof.
  intros Hno. cbv zeta.
  pose proof (read_after_check it w) as H. cbv zeta in H.
  unfold iteration, try_except, bind in *.
  rewrite (interval_check_not_reached _ _ _ Hno). exact H.
Qed.

Lemma interval_not_reached_early :
  interval_reached (now early_block) (self (listen_enter 0 0 calibrated_world))
  = false.
Proof.
  unfold interval_reached. destruct (Rge_dec _ _) as [H|]; [|reflexivity].
  simpl in H. lra.
Qed.

(** C9 as stated fails: a run in which the listening thread is capturing
    and has buffered a block while [_calibrate_noise], having started it,
    has not returned yet. *)
Lemma capture_before_calibration_returns :
  reachable tolerant_device default_recorder early_capture_system /\
  listening early_capture_system = ListeningCapturing /\
  temp_frames (world early_capture_system) = [block55] /\
  calibration early_capture_system <> CalibrationReturned.
Proof.
  split; [exact early_capture_system_reachable|].
  split; [reflexivity|]. split; [|discriminate].
  unfold early_capture_system. cbn [world].
  destruct (iteration_not_reached early_block _ interval_not_reached_early)
    as [H _].
  rewrite H. reflexivity.
Qed.

(** X4. In an iteration whose interval check returns, a block handed over
    by the stream is appended to the buffer even when decoding or
    filtering it raises or the detector is never reached; if the same
    iteration flushed, the block is the first of the next segment. *)
Theorem read_block_is_buffered (it : Iteration) (w : World) (data : bytes) :
  is_Some (stream (self w)) ->
  read_outcome it = ReadData data ->
  interval_reached (now it) (self w) = false \/
  temp_frames w = [] \/ save_outcome it <> TempFileFails ->
  temp_frames (iteration it w).2 =
    (if interval_reached (now it) (self w) then [] else temp_frames w)
    ++ [data].
Proof.
  intros [st Hst] Hread Hcheck.
  destruct (interval_reached (now it) (self w)) eqn:Hreached.
  - assert (Hret : (interval_check (now it) (save_outcome it) w).1 = inr tt
                   /\ temp_frames (interval_check (now it) (save_outcome it) w).2
                      = []).
    { rewrite (interval_check_reached _ _ _ Hreached).
      destruct (temp_frames w) as [|b bs] eqn:Hbuf; [split; reflexivity|].
      destruct Hcheck as [|[|Ho]]; try discriminate.
      destruct (save_outcome it) as [|name|name]; [congruence| |].
      - rewrite (save_dropped name) by auto. split; reflexivity.
      - destruct (wave_header (self w)) as [e|hdr] eqn:Hhdr.
        + rewrite (save_dropped name) by eauto. split; reflexivity.
        + rewrite (save_written _ _ _ _ Hhdr). split; reflexivity. }
    destruct Hret as [Hret Hempty].
    pose proof (interval_check_writes_capture_only (now it) (save_outcome it) w)
      as Hkeep.
    pose proof (read_after_check it
                  (interval_check (now it) (save_outcome it) w).2) as H.
    cbv zeta in H. destruct H as [H _].
    unfold iteration, try_except, bind in *.
    destruct (interval_check (now it) (save_outcome it) w) as [[e|[]] w1];
      [discriminate|]. cbn [snd] in *.
    rewrite H, Hempty.
    assert (Hs : stream (self w1) = stream (self w)) by apply Hkeep.
    rewrite Hs, Hst. unfold block_of. now rewrite Hread.
  - destruct (iteration_not_reached it w Hreached) as [H _].
    rewrite H, Hst. unfold block_of. now rewrite Hread.
Qed.

Lemma interval_reached_buffering_later :
  interval_reached 12 (self buffering_world) = true.
Proof. apply interval_reached_true. simpl. lra. Qed.

Lemma interval_not_reached_buffering :
  interval_reached 3 (self buffering_world) = false.
Proof.
  unfold interval_reached. destruct (Rge_dec _ _) as [H|]; [|reflexivity].
  simpl in H. lra.
Qed.

Lemma read_block_is_buffered_witness :
  temp_frames
    (iteration (mkIteration 12 (WriteOk "seg.wav") (ReadData block55)
                  (inl ValueError)) buffering_world).2 = [block55] /\
  temp_frames
    (iteration (mkIteration 3 TempFileFails (ReadData block55)
                  (inl ValueError)) buffering_world).2 = [block55; block55].
Proof.
  split.
  - pose proof (read_block_is_buffered
                  (mkIteration 12 (WriteOk "seg.wav") (ReadData block55)
                     (inl ValueError)) buffering_world block55) as H.
    cbn [now read_outcome save_outcome] in H.
    rewrite interval_reached_buffering_later in H.
    apply H; [simpl; eauto | reflexivity | right; right; discriminate].
  - pose proof (read_block_is_buffered
                  (mkIteration 3 TempFileFails (ReadData block55)
                     (inl ValueError)) buffering_world block55) as H.
    cbn [now read_outcome save_outcome] in H.
    rewrite interval_not_reached_buffering in H.
    apply H; [simpl; eauto | reflexivity | left; reflexivity].
Defined.

Lemma listen_loop_app its1 its2 w :
  (listen_loop (its1 ++ its2) w).2 =
    (listen_loop its2 (listen_loop its1 w).2).2.
Proof.
  revert w. induction its1 as [|it rest IH]; intros w; [reflexivity|].
  destruct (running (self w)) eqn:Hrun.
  - rewrite <- app_comm_cons.
    destruct (listen_loop_cons it (rest ++ its2) w Hrun) as (? & ? & _ & _ & ->).
    destruct (listen_loop_cons it rest w Hrun) as (? & ? & _ & _ & ->).
    cbn [snd]. apply IH.
  - rewrite !(listen_loop_stopped _ _ Hrun). reflexivity.
Qed.

Lemma interval_reached_same t s s' :
  last_recording_time s' = last_recording_time s ->
  recording_interval s' = recording_interval s ->
  interval_reached t s' = interval_reached t s.
Proof. intros H1 H2. unfold interval_reached. now rewrite H1, H2. Qed.

Lemma wave_header_same s s' :
  channels s' = channels s -> p s' = p s -> format s' = format s ->
  rate s' = rate s -> wave_header s' = wave_header s.
Proof. intros H1 H2 H3 H4. unfold wave_header. now rewrite H1, H2, H3, H4. Qed.

(** Between two interval boundaries the loop only buffers. *)
Lemma listen_loop_buffers its w :
  running (self w) = true ->
  Forall (fun it => interval_reached (now it) (self w) = false) its ->
  let w' := (listen_loop its w).2 in
  temp_frames w' =
    temp_frames w ++ match stream (self w) with
                     | Some _ => blocks_read its
                     | None => []
                     end /\
  fs w' = fs w /\
  audio_queue (self w') = audio_queue (self w) /\
  last_recording_time (self w') = last_recording_time (self w).
Proof.
  intros Hrun Hall. revert w Hrun Hall.
  induction its as [|it rest IH]; intros w Hrun Hall; cbv zeta.
  - cbn. unfold blocks_read. cbn.
    destruct (stream (self w)); rewrite app_nil_r; auto.
  - apply Forall_cons in Hall as [Hit Hrest].
    destruct (listen_loop_cons it rest w Hrun) as (? & ? & _ & _ & ->).
    cbn [snd].
    destruct (iteration_not_reached it w Hit) as (Hb & Hf & Hq & Ht).
    pose proof (iteration_keeps_settings it w) as Hkeep.
    set (w1 := (iteration it w).2) in *.
    assert (Hrun1 : running (self w1) = true)
      by (rewrite <- Hrun; apply Hkeep).
    assert (Hstream : stream (self w1) = stream (self w)) by apply Hkeep.
    assert (Hint : recording_interval (self w1) = recording_interval (self w))
      by apply Hkeep.
    destruct (IH w1 Hrun1) as (Hb' & Hf' & Hq' & Ht').
    { eapply Forall_impl; [exact Hrest|]. intros it' H'. cbn in *.
      now rewrite (interval_reached_same _ _ _ Ht Hint). }
    rewrite Hb', Hf', Hq', Ht', Hb, Hstream.
    repeat split; auto.
    unfold blocks_read. cbn [map concat].
    destruct (stream (self w)); rewrite <- ?app_assoc, ?app_nil_r; reflexivity.
Qed.

(** The iteration that finds the interval over and the container
    writable. *)
Lemma iteration_flushes f w name hdr :
  interval_reached (now f) (self w) = true ->
  temp_frames w <> [] ->
  save_outcome f = WriteOk name ->
  wave_header (self w) = inr hdr ->
  let w' := (iteration f w).2 in
  audio_queue (self w') = audio_queue (self w) ++ [name] /\
  fs w' !! name =
    Some (WaveFile (mkWav hdr.1.1 hdr.1.2 hdr.2 (concat (temp_frames w)))) /\
  temp_frames w' = match stream (self w) with
                   | Some _ => block_of f
                   | None => []
                   end /\
  last_recording_time (self w') = now f.
Proof.
  intros Hreached Hne Ho Hhdr. cbv zeta.
  assert (Hcheck : interval_check (now f) (save_outcome f) w =
            (inr tt,
             after_reset (now f)
               (upd_self (queue_put name)
                  (upd_fs (insert name
                     (WaveFile (mkWav hdr.1.1 hdr.1.2 hdr.2
                                  (concat (temp_frames w)))))
                     (upd_fs (insert name EmptyFile) w))))).
  { rewrite (interval_check_reached _ _ _ Hreached), Ho.
    destruct (temp_frames w) as [|b bs] eqn:Hbuf; [congruence|].
    now rewrite (save_written _ _ _ _ Hhdr). }
  match type of Hcheck with _ = (_, ?w1) =>
    pose proof (read_after_check f w1) as H end.
  cbv zeta in H. destruct H as (Hb & Hf & Hq & Ht).
  unfold iteration, try_except, bind in *. rewrite Hcheck.
  rewrite Hb, Hf, Hq, Ht. cbn.
  rewrite lookup_insert_eq. repeat split; reflexivity.
Qed.

(** X5. The segment written at an interval boundary holds, in order,
    exactly the blocks buffered before and the blocks read in the
    iterations since: with the stream open and the container writable,
    after iterations that stay within the interval and one that finds it
    over, one handle has been enqueued, the file it names holds those
    blocks, the timer holds the time of that last iteration, and the
    buffer holds only the block that iteration read. *)
Theorem segment_holds_blocks_since_reset
    (its : list Iteration) (f : Iteration) (name : string)
    (hdr : Z * Z * Z) (w : World) :
  running (self w) = true ->
  is_Some (stream (self w)) ->
  Forall (fun it => interval_reached (now it) (self w) = false) its ->
  interval_reached (now f) (self w) = true ->
  temp_frames w ++ blocks_read its <> [] ->
  save_outcome f = WriteOk name ->
  wave_header (self w) = inr hdr ->
  let w' := (listen_loop (its ++ [f]) w).2 in
  audio_queue (self w') = audio_queue (self w) ++ [name] /\
  fs w' !! name =
    Some (WaveFile (mkWav hdr.1.1 hdr.1.2 hdr.2
                      (concat (temp_frames w ++ blocks_read its)))) /\
  temp_frames w' = block_of f /\
  last_recording_time (self w') = now f.
Proof.
  intros Hrun [st Hst] Hall Hreached Hne Ho Hhdr. cbv zeta.
  rewrite listen_loop_app.
  destruct (listen_loop_buffers its w Hrun Hall) as (Hb & Hf & Hq & Ht).
  pose proof (listen_loop_writes_capture_only its w) as Hkeep.
  set (w1 := (listen_loop its w).2) in *.
  rewrite Hst in Hb.
  assert (Hrun1 : running (self w1) = true) by (rewrite <- Hrun; apply Hkeep).
  assert (Hstream : stream (self w1) = Some st)
    by (rewrite <- Hst; apply Hkeep).
  assert (Hreached1 : interval_reached (now f) (self w1) = true).
  { rewrite <- Hreached. apply interval_reached_same; [exact Ht | apply Hkeep]. }
  assert (Hhdr1 : wave_header (self w1) = inr hdr).
  { rewrite <- Hhdr. apply wave_header_same; apply Hkeep. }
  destruct (listen_loop_cons f [] w1 Hrun1) as (? & ? & _ & _ & ->).
  cbn [snd listen_loop ret].
  destruct (iteration_flushes f w1 name hdr Hreached1) as (Hq' & Hf' & Hb' & Ht');
    [rewrite Hb; exact Hne | exact Ho | exact Hhdr1 |].
  rewrite Hq', Hf', Hb', Ht', Hq, Hb, Hstream. repeat split; reflexivity.
Qed.

Lemma interval_reached_false t s :
  (t - last_recording_time s < recording_interval s)%R ->
  interval_reached t s = false.
Proof.
  intros H. unfold interval_reached.
  destruct (Rge_dec _ _) as [Hge|]; [lra | reflexivity].
Qed.

Lemma segment_holds_blocks_since_reset_witness :
  let its := [reading_at 3 TempFileFails; reading_at 6 TempFileFails] in
  let w' := (listen_loop (its ++ [reading_at 12 (WriteOk "seg.wav")])
               started_world).2 in
  audio_queue (self w') = ["seg.wav"] /\
  fs w' !! "seg.wav" =
    Some (WaveFile (mkWav 1 2 44100 (block55 ++ block55))) /\
  temp_frames w' = [block55] /\
  last_recording_time (self w') = 12%R.
Proof.
  apply (segment_holds_blocks_since_reset
           [reading_at 3 TempFileFails; reading_at 6 TempFileFails]
           (reading_at 12 (WriteOk "seg.wav")) "seg.wav" (1, 2, 44100)%Z
           started_world).
  - reflexivity.
  - simpl. eauto.
  - repeat constructor; apply interval_reached_false; simpl; lra.
  - apply interval_reached_true. simpl. lra.
  - discriminate.
  - reflexivity.
  - reflexivity.
Defined.

(** ** The queue *)

Lemma iteration_after_check it w :
  (iteration it w).2 =
    match interval_check (now it) (save_outcome it) w with
    | (inl _, w1) => w1
    | (inr _, w1) =>
        (try_except (read_and_detect (read_outcome it) (filtered_peak it))
           (fun e => if is_IOError e then ret false else ret false) w1).2
    end.
Proof.
  unfold iteration, try_except, bind.
  destruct (interval_check (now it) (save_outcome it) w) as [[e|[]] w1].
  - destruct (is_IOError e); reflexivity.
  - reflexivity.
Qed.

Lemma interval_check_queue t o w :
  exists added,
    audio_queue (self (interval_check t o w).2) = audio_queue (self w) ++ added
    /\ (length added <= 1)%nat.
Proof.
  destruct (interval_reached t (self w)) eqn:Hreached.
  - rewrite (interval_check_reached _ _ _ Hreached).
    destruct (temp_frames w) as [|b bs] eqn:Hbuf.
    { exists []. cbn. rewrite app_nil_r. auto. }
    destruct o as [|name|name].
    + exists []. cbn. rewrite app_nil_r. auto.
    + rewrite (save_dropped name) by auto.
      exists []. cbn. rewrite app_nil_r. auto.
    + destruct (wave_header (self w)) as [e|hdr] eqn:Hhdr.
      * rewrite (save_dropped name) by eauto.
        exists []. cbn. rewrite app_nil_r. auto.
      * rewrite (save_written _ _ _ _ Hhdr). exists [name]. cbn. auto.
  - rewrite (interval_check_not_reached _ _ _ Hreached).
    exists []. cbn. rewrite app_nil_r. auto.
Qed.

Lemma iteration_queue it w :
  exists added,
    audio_queue (self (iteration it w).2) = audio_queue (self w) ++ added /\
    (length added <= 1)%nat.
Proof.
  rewrite iteration_after_check.
  destruct (interval_check_queue (now it) (save_outcome it) w)
    as (added & Hq & Hlen).
  destruct (interval_check (now it) (save_outcome it) w) as [[e|[]] w1];
    cbn [snd] in Hq.
  - exists added. auto.
  - pose proof (read_after_check it w1) as H. cbv zeta in H.
    destruct H as (_ & _ & -> & _). exists added. auto.
Qed.

(** X6. The capture loop treats the queue as first-in first-out storage
    it only appends to: whatever happens in its iterations, the queue
    afterwards is the queue before followed by the new handles, at most
    one for each iteration. *)
Theorem capture_loop_appends_to_queue (its : list Iteration) (w : World) :
  exists added,
    audio_queue (self (listen_loop its w).2) = audio_queue (self w) ++ added /\
    (length added <= length its)%nat.
Proof.
  revert w. induction its as [|it rest IH]; intros w.
  - exists []. cbn. rewrite app_nil_r. auto.
  - destruct (running (self w)) eqn:Hrun.
    + destruct (listen_loop_cons it rest w Hrun) as (? & ? & _ & _ & ->).
      cbn [snd].
      destruct (iteration_queue it w) as (a1 & Hq1 & Hl1).
      destruct (IH (iteration it w).2) as (a2 & Hq2 & Hl2).
      exists (a1 ++ a2). rewrite Hq2, Hq1, <- app_assoc.
      split; [reflexivity|]. rewrite length_app. simpl. lia.
    + rewrite (listen_loop_stopped _ _ Hrun).
      exists []. cbn. rewrite app_nil_r. split; [reflexivity | lia].
Qed.

(** ** Flags, queue and profile along a run *)

Lemma start_listening_flags dev w :
  let w' := (start_listening dev w).2 in
  is_calibrated (self w') = is_calibrated (self w) /\
  running (self w') = running (self w) /\
  audio_queue (self w') = audio_queue (self w).
Proof.
  destruct w as [s log files threads buffered t0]. destruct s.
  unfold start_listening. run_monad. cbn.
  repeat (match goal with
          | |- context [bool_decide (is_Some ?o)] => destruct o; cbn
          | |- context [dev ?h ?c] => destruct (dev h c) eqn:?; cbn
          end);
    repeat split; reflexivity.
Qed.

Lemma stop_flags dev w :
  let w' := (stop dev w).2 in
  is_calibrated (self w') = is_calibrated (self w) /\
  running (self w') = false /\
  audio_queue (self w') = audio_queue (self w).
Proof.
  destruct w as [s log files threads buffered t0]. destruct s.
  unfold stop. run_monad. cbn.
  repeat (match goal with
          | |- context [bool_decide (is_Some ?o)] => destruct o; cbn
          | |- context [dev ?h ?c] => destruct (dev h c) eqn:?; cbn
          end);
    repeat split; reflexivity.
Qed.

Lemma calibrate_profile_flags s :
  is_calibrated (calibrate_profile s) = is_calibrated s /\
  running (calibrate_profile s) = running s /\
  audio_queue (calibrate_profile s) = audio_queue s /\
  noise_calibration_samples (calibrate_profile s) = noise_calibration_samples s.
Proof.
  unfold calibrate_profile.
  destruct (noise_calibration_samples s) eqn:Hs; cbn; rewrite ?Hs; auto.
Qed.

Lemma queue_same_grows w w' :
  audio_queue (self w') = audio_queue (self w) -> queue_grows w w'.
Proof. intros H. exists []. now rewrite app_nil_r. Qed.





(** ** start_listening in full *)

(** X9. [start_listening] starts the calibration thread exactly when
    [PyAudio()], [get_default_input_device_info], [open] and
    [start_stream] all succeed; it then returns with handle and stream
    stored and nothing else called on the device.  Otherwise no thread is
    started, and the device is left with [terminate] as its last call
    whenever a PyAudio handle is stored; without one, only the failed
    [PyAudio()] was called. *)
Theorem start_listening_starts_calibration (dev : Device) (w : World) :
  let r := start_listening dev w in
  started r.2 =
    (if start_succeeds dev (devlog w)
     then calibrate_noise_thread :: started w
     else started w) /\
  (start_succeeds dev (devlog w) = true ->
   r.1 = inr tt /\
   is_Some (p (self r.2)) /\
   is_Some (stream (self r.2)) /\
   devlog r.2 =
     [call_start_stream; call_open; call_get_default_input_device_info;
      call_PyAudio] ++ devlog w) /\
  (start_succeeds dev (devlog w) = false ->
   (is_Some (p (self r.2)) -> head (devlog r.2) = Some call_terminate) /\
   (p (self r.2) = None -> devlog r.2 = call_PyAudio :: devlog w)).
Proof.
  destruct w as [s log files threads buffered t0]. destruct s.
  unfold start_listening, start_succeeds. run_monad. cbn.
  repeat (match goal with
          | |- context [dev ?h ?c] => destruct (dev h c) eqn:?; cbn
          | |- context [bool_decide (is_Some ?o)] => destruct o; cbn
          end);
    repeat split; eauto; try discriminate;
    try (intros [? ?]; discriminate).
Qed.

Lemma start_listening_starts_calibration_witness :
  started (start_listening tolerant_device (new_world default_recorder)).2
    = [calibrate_noise_thread] /\
  started (start_listening no_start_device (new_world default_recorder)).2
    = [] /\
  head (devlog
          (start_listening no_start_device (new_world default_recorder)).2)
    = Some call_terminate.
Proof.
  split; [|split].
  - exact (proj1 (start_listening_starts_calibration tolerant_device
                    (new_world default_recorder))).
  - exact (proj1 (start_listening_starts_calibration no_start_device
                    (new_world default_recorder))).
  - apply (proj2 (proj2 (start_listening_starts_calibration no_start_device
                           (new_world default_recorder)))).
    + reflexivity.
    + simpl. eauto.
Defined.

(** X10. When the stream opens but cannot be started, [start_listening]
    keeps the stream it did not start and terminates PyAudio; a later
    [stop] therefore still asks that stream to stop, after the
    termination. *)
Theorem unstarted_stream_is_stopped_later (dev : Device) (w : World) (e : exn) :
  dev (devlog w) call_PyAudio = None ->
  dev (call_PyAudio :: devlog w) call_get_default_input_device_info = None ->
  dev (call_get_default_input_device_info :: call_PyAudio :: devlog w)
      call_open = None ->
  dev (call_open :: call_get_default_input_device_info :: call_PyAudio
       :: devlog w) call_start_stream = Some e ->
  let w1 := (start_listening dev w).2 in
  is_Some (stream (self w1)) /\
  head (devlog w1) = Some call_terminate /\
  started w1 = started w /\
  exists later, devlog (stop dev w1).2 = later ++ call_stop_stream :: devlog w1.
Proof.
  intros H1 H2 H3 H4.
  destruct w as [s log files threads buffered t0]. destruct s.
  unfold start_listening, stop. run_monad. cbn in *.
  rewrite H1. cbn. rewrite H2. cbn. rewrite H3. cbn. rewrite H4. cbn.
  repeat (match goal with
          | |- context [dev ?h ?c] => destruct (dev h c) eqn:?; cbn
          end);
    repeat split; eauto;
    first [ exists [call_terminate; call_close]; reflexivity
          | exists [call_terminate]; reflexivity
          | exists [call_close]; reflexivity
          | exists []; reflexivity ].
Qed.

Lemma unstarted_stream_is_stopped_later_witness :
  let w1 := (start_listening no_start_device (new_world default_recorder)).2 in
  is_Some (stream (self w1)) /\
  head (devlog w1) = Some call_terminate /\
  started w1 = [] /\
  exists later,
    devlog (stop no_start_device w1).2 = later ++ call_stop_stream :: devlog w1.
Proof.
  apply (unstarted_stream_is_stopped_later no_start_device
           (new_world default_recorder) IOError); reflexivity.
Defined.

(** ** More on calibration *)

(** X11. Calibration never lowers the detection threshold; with at least
    one sample the threshold ends at least 1.5 times the noise floor, and
    the noise floor at least the mean of the samples. *)
Theorem calibration_never_lowers_threshold
    (its : list ReadOutcome) (w : World) :
  let samples := noise_calibration_samples (self (calibration_loop its w).2) in
  let s' := self (_calibrate_noise its w).2 in
  (threshold (self w) <= threshold s')%R /\
  (samples <> [] ->
   (noise_floor s' * 1.5 <= threshold s')%R /\
   (mean (map IZR samples) <= noise_floor s')%R).
Proof.
  cbv zeta. rewrite calibrate_noise_unfold. cbn.
  destruct (calibration_loop_settings its w) as [Ht _].
  set (s1 := self (calibration_loop its w).2) in *.
  destruct (noise_calibration_samples s1) as [|x xs] eqn:Hs.
  - unfold calibrate_profile. rewrite Hs, Ht.
    split; [lra | congruence].
  - assert (Hne : noise_calibration_samples s1 <> []) by congruence.
    destruct (calibrate_profile_nonempty s1 Hne) as [Hfloor Hthr].
    cbv zeta in Hfloor, Hthr. rewrite Ht, Hs in *.
    rewrite Hthr. split; [apply Rmax_l|].
    intros _. split; [apply Rmax_r|].
    rewrite Hfloor.
    pose proof (sqrt_pos
      (Rsum (map (fun v => ((v - mean (map IZR (x :: xs)))
                            * (v - mean (map IZR (x :: xs))))%R)
               (map IZR (x :: xs)))
       / INR (length (map IZR (x :: xs))))) as Hpos.
    unfold stddev. lra.
Qed.

Lemma calibration_never_lowers_threshold_witness :
  let its := [ReadData block55; NotActive; ReadData block55] in
  let s' := self (_calibrate_noise its started_world).2 in
  (6000 <= threshold s')%R /\
  (noise_floor s' * 1.5 <= threshold s')%R /\
  (mean (map IZR [5; 5]%Z) <= noise_floor s')%R.
Proof.
  destruct (calibration_never_lowers_threshold
              [ReadData block55; NotActive; ReadData block55] started_world)
    as [H1 H2].
  split; [exact H1|]. apply H2. discriminate.
Defined.

Lemma int16_of_bytes_range lo hi : int16 (int16_of_bytes lo hi).
Proof.
  unfold int16, int16_of_bytes.
  pose proof (Byte.to_N_bounded lo). pose proof (Byte.to_N_bounded hi).
  cbv zeta.
  destruct (Z.ltb_spec
              (Z.of_N (Byte.to_N lo) + 256 * Z.of_N (Byte.to_N hi)) 32768);
    lia.
Qed.

Lemma np_frombuffer_spec data :
  match np_frombuffer data with
  | inr audio_data =>
      Nat.even (length data) = true /\
      length data = (2 * length audio_data)%nat /\
      Forall int16 audio_data
  | inl _ => Nat.even (length data) = false
  end.
Proof.
  assert (H : forall n (d : bytes), (length d <= n)%nat ->
    match np_frombuffer d with
    | inr audio_data =>
        Nat.even (length d) = true /\
        length d = (2 * length audio_data)%nat /\
        Forall int16 audio_data
    | inl _ => Nat.even (length d) = false
    end).
  { induction n as [|n IH]; intros d Hlen.
    - destruct d; [|simpl in Hlen; lia]. cbn. auto.
    - destruct d as [|lo [|hi rest]]; [cbn; auto | reflexivity |].
      cbn [np_frombuffer]. specialize (IH rest).
      simpl in Hlen. specialize (IH ltac:(lia)).
      destruct (np_frombuffer rest) as [e|xs].
      + exact IH.
      + destruct IH as (He & Hl & Hall). cbn [length]. repeat split.
        * exact He.
        * lia.
        * constructor; [apply int16_of_bytes_range | exact Hall]. }
  apply (H (length data)). lia.
Qed.

Lemma np_abs16_range x : int16 x -> int16 (np_abs16 x).
Proof.
  unfold int16, np_abs16. intros H.
  destruct (Z.eqb_spec x (-32768)); lia.
Qed.

Lemma fold_max_range xs x :
  int16 x -> Forall int16 xs -> int16 (fold_left Z.max xs x).
Proof.
  revert x. induction xs as [|y ys IH]; intros x Hx Hall; [exact Hx|].
  apply Forall_cons in Hall as [Hy Hys]. cbn. apply IH; [|exact Hys].
  unfold int16 in *. lia.
Qed.

(** What one iteration of the sampling loop adds. *)
Lemma calibrate_iteration_sample r w :
  is_Some (stream (self w)) ->
  exists new,
    noise_calibration_samples (self (calibrate_iteration r w).2) =
      noise_calibration_samples (self w) ++ new /\
    Forall int16 new /\
    length new = (if yields_sample r then 1 else 0)%nat.
Proof.
  intros [st Hst]. unfold calibrate_iteration. run_monad. cbn. rewrite Hst.
  destruct r as [|e|data]; cbn.
  - exists []. rewrite app_nil_r. auto.
  - exists []. rewrite app_nil_r. auto.
  - unfold well_formed_block.
    pose proof (np_frombuffer_spec data) as Hspec.
    destruct (np_frombuffer data) as [e|audio]; cbn.
    + rewrite Hspec, andb_false_r. exists []. rewrite app_nil_r. auto.
    + destruct Hspec as (Heven & Hlen & Hall). rewrite Heven, andb_true_r.
      destruct audio as [|x xs]; cbn.
      * rewrite Hlen. cbn. exists []. rewrite app_nil_r. auto.
      * rewrite Hlen. cbn. exists [fold_left Z.max (map np_abs16 xs) (np_abs16 x)].
        split; [reflexivity|]. split; [|reflexivity].
        apply Forall_cons in Hall as [Hx Hxs].
        constructor; [|constructor].
        apply fold_max_range; [now apply np_abs16_range|].
        apply Forall_map. eapply Forall_impl; [exact Hxs|].
        intros y Hy. now apply np_abs16_range.
Qed.

(** X12. The sampling loop of calibration keeps the samples it had and
    adds exactly one sample, within the int16 range, for each iteration
    that reads a non-empty block of whole samples; an inactive stream, a
    failed read, an empty block or a block of odd size adds nothing and
    does not end the loop.  Without a stream nothing is sampled. *)
Theorem calibration_collects_one_sample_per_block
    (its : list ReadOutcome) (w : World) :
  exists new,
    noise_calibration_samples (self (calibration_loop its w).2) =
      noise_calibration_samples (self w) ++ new /\
    Forall int16 new /\
    length new =
      match stream (self w) with
      | Some _ => length (List.filter yields_sample its)
      | None => 0%nat
      end.
Proof.
  revert w. induction its as [|r rest IH]; intros w.
  - exists []. cbn. rewrite app_nil_r.
    destruct (stream (self w)); auto.
  - rewrite calibration_loop_cons.
    destruct (IH (calibrate_iteration r w).2) as (new2 & Hs2 & Hall2 & Hlen2).
    destruct (calibrate_iteration_frame r w) as (_ & Hframe & _).
    cbv zeta in Hframe.
    pose proof (f_equal stream Hframe) as Hstream. cbn in Hstream.
    rewrite Hstream in Hlen2.
    destruct (stream (self w)) as [st|] eqn:Hst.
    + destruct (calibrate_iteration_sample r w) as (new1 & Hs1 & Hall1 & Hlen1);
        [rewrite Hst; eauto|].
      exists (new1 ++ new2). rewrite Hs2, Hs1, <- app_assoc.
      split; [reflexivity|]. split; [now apply Forall_app|].
      rewrite length_app, Hlen1, Hlen2. cbn [List.filter].
      destruct (yields_sample r); reflexivity.
    + exists new2. split; [|auto].
      rewrite Hs2. f_equal.
      unfold calibrate_iteration. run_monad. cbn. rewrite Hst.
      destruct r; reflexivity.
Qed.

(** * Properties of the collaborators *)

(** ** Stripped text *)
Module TextFacts.
Section Chars.
Context {A : Type}.
Variable is_space : A -> bool.

Lemma lstrip_split (s : list A) :
  exists l, s = l ++ Text.lstrip is_space s /\ forallb is_space l = true.
Proof.
  induction s as [|c rest (l & Hs & Hl)].
  - exists []. auto.
  - cbn. destruct (is_space c) eqn:Hc.
    + exists (c :: l). cbn. rewrite Hc, Hl. split; [f_equal; exact Hs | auto].
    + exists []. auto.
Qed.

Lemma lstrip_head (s : list A) c rest :
  Text.lstrip is_space s = c :: rest -> is_space c = false.
Proof.
  induction s as [|d s IH]; cbn; [discriminate|].
  destruct (is_space d) eqn:Hd; [exact IH|].
  intros [= <- _]. exact Hd.
Qed.

Lemma lstrip_keeps_last (s : list A) c :
  is_space c = false ->
  Text.lstrip is_space (s ++ [c]) = Text.lstrip is_space s ++ [c].
Proof.
  intros Hc. induction s as [|d s IH]; cbn.
  - now rewrite Hc.
  - destruct (is_space d); [exact IH | reflexivity].
Qed.

Lemma strip_split (s : list A) :
  exists l r,
    s = l ++ Text.strip is_space s ++ r /\
    forallb is_space l = true /\ forallb is_space r = true.
Proof.
  unfold Text.strip, Text.rstrip.
  destruct (lstrip_split s) as (l & Hs & Hl).
  destruct (lstrip_split (rev (Text.lstrip is_space s))) as (r & Hr & Hrs).
  exists l, (rev r). split; [|split; [exact Hl|]].
  - rewrite Hs at 1. f_equal.
    rewrite <- (rev_involutive (Text.lstrip is_space s)), Hr at 1.
    now rewrite rev_app_distr.
  - rewrite forallb_forall in *. intros x Hx. apply Hrs.
    now apply in_rev.
Qed.

Lemma strip_ends (s : list A) :
  match Text.strip is_space s with
  | [] => True
  | c :: _ => is_space c = false
  end /\
  match rev (Text.strip is_space s) with
  | [] => True
  | c :: _ => is_space c = false
  end.
Proof.
  unfold Text.strip, Text.rstrip. rewrite rev_involutive.
  set (t := Text.lstrip is_space s).
  assert (Hlast : match Text.lstrip is_space (rev t) with
                  | [] => True
                  | c :: _ => is_space c = false
                  end).
  { destruct (Text.lstrip is_space (rev t)) eqn:H; [exact I|].
    eapply lstrip_head; exact H. }
  split; [|exact Hlast].
  (* the head of t survives: t starts with a non-space character *)
  destruct t as [|c rest] eqn:Ht; [exact I|].
  assert (Hc : is_space c = false) by (eapply lstrip_head; exact Ht).
  cbn [rev]. rewrite lstrip_keeps_last by exact Hc.
  rewrite rev_app_distr. cbn. exact Hc.
Qed.
End Chars.
End TextFacts.

(** X13. [LightOCRProcessor.process] of a processor built by its
    constructor never raises on its own account (the processor is always
    loaded): it passes on the failure of Tesseract, or returns the raw
    text without its leading and trailing whitespace, that is, the raw
    text is [l ++ result ++ r] with [l] and [r] whitespace only and
    [result] neither starting nor ending with whitespace. *)
Theorem light_ocr_returns_stripped_text {A} (is_space : A -> bool)
    (cmd : option string) (lang config : string) (ocr : Exc (list A)) :
  match ocr with
  | inl e =>
      LightOCR.process is_space (LightOCR.init cmd lang config) ocr = inl e
  | inr raw =>
      exists result l r,
        LightOCR.process is_space (LightOCR.init cmd lang config) ocr
          = inr result /\
        raw = l ++ result ++ r /\
        forallb is_space l = true /\ forallb is_space r = true /\
        match result with [] => True | c :: _ => is_space c = false end /\
        match rev result with [] => True | c :: _ => is_space c = false end
  end.
Proof.
  destruct ocr as [e|raw]; [reflexivity|].
  destruct (TextFacts.strip_split is_space raw) as (l & r & Hs & Hl & Hr).
  destruct (TextFacts.strip_ends is_space raw) as [Hhead Hlast].
  exists (Text.strip is_space raw), l, r. cbn.
  split; [reflexivity|]. repeat split; assumption.
Qed.

(** ** find_best_text_frame *)
Module BestFrameFacts.
Import BestFrame.

Lemma created_file_exists (name : string) (fs : gset string) :
  name ∈ {[name]} ∪ fs.
Proof. apply elem_of_union_l, elem_of_singleton. reflexivity. Qed.

Lemma no_path_removed (fs : gset string) : fs = fs ∖ list_to_set [].
Proof. cbn. symmetry. apply difference_empty_L. Qed.

Lemma created_and_removed (name : string) (fs done : gset string) :
  ({[name]} ∪ fs ∖ done) ∖ {[name]} = fs ∖ (done ∪ list_to_set [name]).
Proof.
  apply set_eq. intros x. cbn.
  rewrite !elem_of_difference, !elem_of_union, elem_of_difference,
    elem_of_singleton, elem_of_empty.
  tauto.
Qed.

Section Search.
Context {A Frame : Type}.
Variable is_space : A -> bool.
Variable is_word : A -> bool.
Variable light_ocr : LightOCR.LightOCRProcessor.

Local Abbreviation CamEvent := (@BestFrame.CamEvent A Frame).
Local Abbreviation Search := (@BestFrame.Search A Frame).
Local Abbreviation analyse := (@BestFrame.analyse A Frame is_space is_word light_ocr).
Local Abbreviation search := (@BestFrame.search A Frame is_space is_word light_ocr).
Local Abbreviation text_of := (@BestFrame.text_of A Frame is_space light_ocr).
Local Abbreviation words := (@BestFrame.words A is_word).
Local Abbreviation analysed :=
  (@BestFrame.analysed A Frame is_space is_word light_ocr).
Local Abbreviation search_invariant :=
  (@BestFrame.search_invariant A Frame is_space is_word light_ocr).

Lemma analyse_saved frame name ocr st :
  analyse frame (inr name) ocr st = (inr tt, analysed frame name ocr st).
Proof.
  unfold BestFrame.analyse, BestFrame.analysed, save_frame_to_jpg, unlink,
    BestFrame.words.
  destruct (LightOCR.process is_space light_ocr ocr) as [e|[|c text]].
  - run_monad. cbn.
    rewrite bool_decide_eq_true_2 by apply created_file_exists. reflexivity.
  - run_monad. cbn. reflexivity.
  - generalize (Text.findall_words is_word). intros fw.
    run_monad. cbn.
    destruct (length (fw (c :: text))) as [|m]; [reflexivity|].
    destruct (best_text_count st <=? m)%nat; reflexivity.
Qed.

Lemma search_app (a b : list CamEvent) st :
  search (a ++ b) st =
    match search a st with
    | (inr _, st1) => search b st1
    | (inl e, st1) => (inl e, st1)
    end.
Proof.
  revert st. induction a as [|ev a IH]; intros st; [reflexivity|].
  destruct ev as [|frame saved ocr]; cbn [app BestFrame.search].
  - apply IH.
  - unfold bind.
    destruct (BestFrame.analyse is_space is_word light_ocr frame saved ocr st)
      as [[e|[]] st1]; [reflexivity | apply IH].
Qed.

Lemma search_keeps_invariant (events : list CamEvent) (files0 : gset string) :
  all_saved events ->
  exists st,
    search events (start files0) = (inr tt, st) /\
    search_invariant events st /\
    files st = files0 ∖ list_to_set (paths events).
Proof.
  induction events as [|ev events IH] using rev_ind; intros Hall.
  - exists (start files0). split; [reflexivity|]. split.
    + cbn. repeat split. intros ? ? ? [].
    + cbn. apply no_path_removed.
  - apply Forall_app in Hall as [Hall Hev].
    apply Forall_cons in Hev as [Hev _].
    destruct (IH Hall) as (st & Hrun & Hinv & Hfiles). clear IH.
    rewrite search_app, Hrun.
    destruct ev as [|frame [e|name] ocr]; [| contradiction |].
    + (* no frame *)
      exists st. split; [reflexivity|]. split.
      * unfold BestFrame.search_invariant in *.
        destruct (best_frame st) as [f|].
        -- destruct Hinv as (Hcount & pre & ev & post & -> & Ht & Hpos & Hpre & Hpost).
           split; [exact Hcount|].
           exists pre, ev, (post ++ [NoFrame]).
           rewrite <- app_assoc. split; [reflexivity|].
           split; [exact Ht|]. split; [exact Hpos|]. split; [exact Hpre|].
           intros ev' f' t' Hin Ht'. apply in_app_or in Hin as [Hin|[<-|[]]].
           ++ eapply Hpost; eauto.
           ++ discriminate.
        -- destruct Hinv as (Ht & Hc & Hno). repeat split; auto.
           intros ev f t Hin Ht'. apply in_app_or in Hin as [Hin|[<-|[]]].
           ++ eapply Hno; eauto.
           ++ discriminate.
      * unfold paths in *. rewrite flat_map_app. cbn. rewrite app_nil_r.
        exact Hfiles.
    + (* a frame, saved as [name] *)
      cbn [BestFrame.search]. unfold bind. rewrite analyse_saved. cbn [ret].
      exists (analysed frame name ocr st). split; [reflexivity|]. split.
      * unfold BestFrame.search_invariant, BestFrame.analysed in *.
        destruct (LightOCR.process is_space light_ocr ocr) as [e|text] eqn:Hp.
        -- (* tesseract failed: nothing to compare *)
           cbn [best_frame best_text best_text_count count_frame upd_files].
           destruct (best_frame st) as [f|].
           ++ destruct Hinv as (Hcount & pre & ev & post & -> & Ht & Hpos & Hpre & Hpost).
              split; [exact Hcount|].
              exists pre, ev, (post ++ [GotFrame frame (inr name) ocr]).
              rewrite <- app_assoc. split; [reflexivity|].
              split; [exact Ht|]. split; [exact Hpos|]. split; [exact Hpre|].
              intros ev' f' t' Hin Ht'. apply in_app_or in Hin as [Hin|[<-|[]]].
              ** eapply Hpost; eauto.
              ** cbn in Ht'. rewrite Hp in Ht'. discriminate.
           ++ destruct Hinv as (Ht & Hc & Hno). repeat split; auto.
              intros ev f t Hin Ht'. apply in_app_or in Hin as [Hin|[<-|[]]].
              ** eapply Hno; eauto.
              ** cbn in Ht'. rewrite Hp in Ht'. discriminate.
        -- destruct (Nat.ltb_spec (best_text_count st) (words text)) as [Hlt|Hge].
           ++ (* a new best frame *)
              cbn [best_frame best_text best_text_count new_best].
              split; [reflexivity|].
              exists events, (GotFrame frame (inr name) ocr), [].
              split; [reflexivity|].
              split; [cbn; now rewrite Hp|]. split; [lia|]. split; [|intros ? ? ? []].
              intros ev' f' t' Hin Ht'.
              destruct (best_frame st) as [f|].
              ** destruct Hinv as (Hcount & pre & ev & post & -> & Ht & Hpos & Hpre & Hpost).
                 apply in_app_or in Hin as [Hin|[<-|Hin]].
                 --- specialize (Hpre _ _ _ Hin Ht'). lia.
                 --- rewrite Ht in Ht'. injection Ht' as <- <-. lia.
                 --- specialize (Hpost _ _ _ Hin Ht'). lia.
              ** destruct Hinv as (_ & _ & Hno).
                 rewrite (Hno _ _ _ Hin Ht'). lia.
           ++ (* not better than the best so far *)
              cbn [best_frame best_text best_text_count count_frame upd_files].
              destruct (best_frame st) as [f|].
              ** destruct Hinv as (Hcount & pre & ev & post & -> & Ht & Hpos & Hpre & Hpost).
                 split; [exact Hcount|].
                 exists pre, ev, (post ++ [GotFrame frame (inr name) ocr]).
                 rewrite <- app_assoc. split; [reflexivity|].
                 split; [exact Ht|]. split; [exact Hpos|]. split; [exact Hpre|].
                 intros ev' f' t' Hin Ht'.
                 apply in_app_or in Hin as [Hin|[<-|[]]].
                 --- eapply Hpost; eauto.
                 --- cbn in Ht'. rewrite Hp in Ht'. injection Ht' as <- <-. lia.
              ** destruct Hinv as (Ht & Hc & Hno). repeat split; auto.
                 intros ev f t Hin Ht'.
                 apply in_app_or in Hin as [Hin|[<-|[]]].
                 --- eapply Hno; eauto.
                 --- cbn in Ht'. rewrite Hp in Ht'. injection Ht' as <- <-. lia.
      * assert (Hf : files (analysed frame name ocr st)
                     = ({[name]} ∪ files st) ∖ {[name]}).
        { unfold BestFrame.analysed.
          destruct (LightOCR.process is_space light_ocr ocr); [reflexivity|].
          match goal with
          | |- context [(?a <? ?b)%nat] => destruct (a <? b)%nat
          end; reflexivity. }
        rewrite Hf, Hfiles. unfold paths. rewrite flat_map_app. cbn.
        rewrite list_to_set_app_L. apply created_and_removed.
Qed.
End Search.
End BestFrameFacts.

(** X14. When every frame can be saved, [find_best_text_frame] returns
    normally, whatever Tesseract does with each frame.  It returns the
    first frame among those read with the largest number of words,
    together with its stripped text, which has at least one word; or no
    frame and the empty text when no frame was read with a word in it. *)
Theorem best_frame_is_first_with_most_words {A Frame : Type}
    (is_space is_word : A -> bool) (light_ocr : LightOCR.LightOCRProcessor)
    (events : list (@BestFrame.CamEvent A Frame)) (files0 : gset string) :
  BestFrame.all_saved events ->
  match (BestFrame.find_best_text_frame is_space is_word light_ocr
           events files0).1 with
  | inr (Some frame, text) =>
      BestFrame.is_best is_space is_word light_ocr events frame text
  | inr (None, text) =>
      text = [] /\ BestFrame.no_text is_space is_word light_ocr events
  | inl _ => False
  end.
Proof.
  intros Hall.
  destruct (BestFrameFacts.search_keeps_invariant is_space is_word light_ocr
              events files0 Hall) as (st & Hrun & Hinv & _).
  unfold BestFrame.find_best_text_frame. rewrite Hrun. cbn [fst].
  unfold BestFrame.search_invariant in Hinv.
  destruct (BestFrame.best_frame st) as [frame|].
  - apply Hinv.
  - destruct Hinv as (Ht & _ & Hno). auto.
Qed.

(** X15. When every frame can be saved, [find_best_text_frame] leaves
    none of its temporary images behind, also for the frames on which
    Tesseract fails: the files afterwards are the files before without
    the paths it used, hence the same files when those paths were new. *)
Theorem best_frame_search_removes_its_files {A Frame : Type}
    (is_space is_word : A -> bool) (light_ocr : LightOCR.LightOCRProcessor)
    (events : list (@BestFrame.CamEvent A Frame)) (files0 : gset string) :
  BestFrame.all_saved events ->
  let after := (BestFrame.find_best_text_frame is_space is_word light_ocr
                  events files0).2 in
  after = files0 ∖ list_to_set (BestFrame.paths events) /\
  ((forall name, In name (BestFrame.paths events) -> name ∉ files0) ->
   after = files0).
Proof.
  intros Hall. cbv zeta.
  destruct (BestFrameFacts.search_keeps_invariant is_space is_word light_ocr
              events files0 Hall) as (st & Hrun & _ & Hfiles).
  unfold BestFrame.find_best_text_frame. rewrite Hrun. cbn [snd].
  split; [exact Hfiles|].
  intros Hnew. rewrite Hfiles.
  apply set_eq. intros x. rewrite elem_of_difference, elem_of_list_to_set.
  split; [tauto|]. intros Hx. split; [exact Hx|].
  intros Hin. apply (Hnew x); [|exact Hx].
  now apply list_elem_of_In.
Qed.

Lemma example_events_saved : BestFrame.all_saved example_events.
Proof. repeat constructor. Qed.

Lemma best_frame_is_first_with_most_words_witness :
  BestFrame.all_saved example_events /\
  BestFrame.is_best blank not_blank example_light_ocr example_events 1%nat
    (String.list_ascii_of_string "hi there").
Proof.
  split; [exact example_events_saved|].
  exact (best_frame_is_first_with_most_words blank not_blank
           example_light_ocr example_events ∅ example_events_saved).
Defined.

Lemma best_frame_search_removes_its_files_witness :
  BestFrame.all_saved example_events /\
  (BestFrame.find_best_text_frame blank not_blank example_light_ocr
     example_events ∅).2 = ∅.
Proof.
  split; [exact example_events_saved|].
  apply (best_frame_search_removes_its_files blank not_blank
           example_light_ocr example_events ∅ example_events_saved).
  intros name _. apply not_elem_of_empty.
Defined.

(** ** The transcriber *)
Module TranscriberFacts.
Import Transcriber.

Local Arguments dot : simpl never.

Lemma split_dot_no_dot s : has_dot s = false -> split_dot s = [s].
Proof.
  induction s as [|c rest IH]; simpl; [reflexivity|].
  destruct (Ascii.eqb c dot); simpl; [discriminate|].
  intros H. now rewrite (IH H).
Qed.

Lemma split_dot_with_dot s :
  has_dot s = true -> exists seg seg' segs, split_dot s = seg :: seg' :: segs.
Proof.
  induction s as [|c rest IH]; simpl; [discriminate|].
  destruct (Ascii.eqb c dot); simpl.
  - intros _. destruct (has_dot rest) eqn:Hd.
    + destruct (IH eq_refl) as (a & b & l & ->). eauto.
    + rewrite (split_dot_no_dot _ Hd). eauto.
  - intros H. destruct (IH H) as (a & b & l & ->). eauto.
Qed.

Lemma has_dot_app stem e : has_dot (stem +:+ String dot e) = true.
Proof.
  induction stem as [|c rest IH]; simpl.
  - reflexivity.
  - rewrite IH. apply orb_true_r.
Qed.

Lemma last_split_dot_app stem e :
  List.last (split_dot (stem +:+ String dot e)) EmptyString =
    List.last (split_dot e) EmptyString.
Proof.
  induction stem as [|c rest IH].
  - simpl.
    destruct (has_dot e) eqn:Hd.
    + destruct (split_dot_with_dot _ Hd) as (a & b & l & ->). reflexivity.
    + rewrite (split_dot_no_dot _ Hd). reflexivity.
  - simpl.
    destruct (split_dot_with_dot _ (has_dot_app rest e)) as (a & b & l & Hs).
    rewrite Hs in *. destruct (Ascii.eqb c dot); exact IH.
Qed.
End TranscriberFacts.

(** X17. The transcriber looks only at the text after the last dot of
    the path, without regard to case: a path [stem.e] whose [e] has no
    dot has the extension [e] in lower case, so every path ending in
    ".wav", as the handles the recorder enqueues do, is loaded as a wav
    file; a path without any dot is its own extension. *)
Theorem extension_is_lowercase_suffix (stem e : string) :
  Transcriber.has_dot e = false ->
  Transcriber.extension (stem +:+ String Transcriber.dot e)
    = Transcriber.lower e /\
  Transcriber.extension e = Transcriber.lower e /\
  Transcriber.audio_format (Transcriber.extension (stem +:+ ".wav"))
    = inr Transcriber.Wav.
Proof.
  intros He. unfold Transcriber.extension. split; [|split].
  - rewrite TranscriberFacts.last_split_dot_app.
    now rewrite (TranscriberFacts.split_dot_no_dot _ He).
  - now rewrite (TranscriberFacts.split_dot_no_dot _ He).
  - change (stem +:+ ".wav") with (stem +:+ String Transcriber.dot "wav").
    rewrite TranscriberFacts.last_split_dot_app. reflexivity.
Qed.

Lemma extension_is_lowercase_suffix_witness :
  Transcriber.extension ("/tmp/tmp.k3x" +:+ String Transcriber.dot "WaV")
    = "wav" /\
  Transcriber.extension "WaV" = "wav" /\
  Transcriber.audio_format (Transcriber.extension ("/tmp/tmp.k3x" +:+ ".wav"))
    = inr Transcriber.Wav.
Proof.
  apply (extension_is_lowercase_suffix "/tmp/tmp.k3x" "WaV"). reflexivity.
Defined.

Lemma chunk_count_spec (n L : Z) (k : nat) :
  (0 < L)%Z ->
  (k < Z.to_nat ((n + L - 1) / L))%nat <-> (Z.of_nat k * L < n)%Z.
Proof.
  intros HL.
  assert (Hq : ((n + L - 1) / L * L <= n + L - 1 < ((n + L - 1) / L + 1) * L)%Z).
  { pose proof (Z.div_mod (n + L - 1) L ltac:(lia)).
    pose proof (Z.mod_pos_bound (n + L - 1) L HL). nia. }
  split; intros H.
  - assert (Z.of_nat k < (n + L - 1) / L)%Z by lia. nia.
  - assert (Z.of_nat k < (n + L - 1) / L)%Z by nia. lia.
Qed.

Lemma audio_chunks_lookup (n L : Z) (k : nat) :
  (0 < L)%Z ->
  exists chunks,
    Transcriber.audio_chunks n L = inr chunks /\
    length chunks = Z.to_nat ((n + L - 1) / L) /\
    chunks !! k =
      if bool_decide (Z.of_nat k * L < n)%Z
      then Some (Z.of_nat k * L, Z.min (Z.of_nat k * L + L) n)%Z
      else None.
Proof.
  intros HL. unfold Transcriber.audio_chunks, Transcriber.py_range0.
  destruct (Z.eqb_spec L 0) as [|_]; [lia|].
  destruct (Z.ltb_spec 0 L) as [_|]; [|lia].
  eexists. split; [reflexivity|]. split.
  - now rewrite !length_map, length_seq.
  - rewrite !list_lookup_fmap.
    destruct (decide (k < Z.to_nat ((n + L - 1) / L))%nat) as [Hk|Hk].
    + rewrite lookup_seq_lt by exact Hk. cbn.
      rewrite bool_decide_eq_true_2 by (apply chunk_count_spec; assumption).
      reflexivity.
    + rewrite lookup_seq_ge by lia. cbn.
      rewrite bool_decide_eq_false_2; [reflexivity|].
      intros H. apply Hk. apply chunk_count_spec; assumption.
Qed.

(** X18. With a positive chunk length the chunks cut the audio into
    consecutive pieces: chunk [k] runs from [k * length] to the smaller of
    [(k + 1) * length] and the end, is never empty and never longer than
    the chunk length, and every millisecond of the audio lies in exactly
    one chunk. *)
Theorem chunks_partition_audio (n L : Z) :
  (0 < L)%Z ->
  exists chunks,
    Transcriber.audio_chunks n L = inr chunks /\
    (forall k a b, chunks !! k = Some (a, b) ->
       a = (Z.of_nat k * L)%Z /\ b = Z.min (a + L) n /\
       (a < b <= a + L)%Z) /\
    (forall t, (0 <= t < n)%Z ->
       exists a b,
         chunks !! Z.to_nat (t / L) = Some (a, b) /\ (a <= t < b)%Z) /\
    (forall t k a b, chunks !! k = Some (a, b) -> (a <= t < b)%Z ->
       k = Z.to_nat (t / L)).
Proof.
  intros HL.
  destruct (audio_chunks_lookup n L 0 HL) as (chunks & Hc & _ & _).
  exists chunks. split; [exact Hc|].
  assert (Hlook : forall k, chunks !! k =
            if bool_decide (Z.of_nat k * L < n)%Z
            then Some (Z.of_nat k * L, Z.min (Z.of_nat k * L + L) n)%Z
            else None).
  { intros k. destruct (audio_chunks_lookup n L k HL) as (c' & Hc' & _ & Hk).
    rewrite Hc in Hc'. injection Hc' as <-. exact Hk. }
  split; [|split].
  - intros k a b Hk. rewrite Hlook in Hk.
    case_bool_decide; [|discriminate]. injection Hk as <- <-. lia.
  - intros t Ht.
    pose proof (Z.div_mod t L ltac:(lia)).
    pose proof (Z.mod_pos_bound t L HL).
    assert (0 <= t / L)%Z by (apply Z.div_pos; lia).
    eexists _, _. rewrite Hlook, Z2Nat.id by assumption.
    rewrite bool_decide_eq_true_2 by nia.
    split; [reflexivity | nia].
  - intros t k a b Hk Ht. rewrite Hlook in Hk.
    case_bool_decide; [|discriminate]. injection Hk as <- <-.
    assert (t / L = Z.of_nat k)%Z; [|lia].
    symmetry. apply (Z.div_unique_pos t L _ (t - Z.of_nat k * L)); lia.
Qed.

Lemma chunks_partition_audio_witness :
  exists chunks,
    Transcriber.audio_chunks 150 60 = inr chunks /\
    chunks = [(0, 60); (60, 120); (120, 150)]%Z.
Proof.
  destruct (chunks_partition_audio 150 60 ltac:(lia)) as (chunks & Hc & _).
  exists chunks. split; [exact Hc|].
  cbn in Hc. injection Hc as <-. reflexivity.
Defined.

Lemma chunk_file_removed (name : string) (fs : gset string) :
  ({[name]} ∪ fs) ∖ {[name]} = fs ∖ {[name]}.
Proof.
  apply set_eq. intros x.
  rewrite !elem_of_difference, elem_of_union, elem_of_singleton. tauto.
Qed.

Lemma chunk_files_removed (name : string) (fs rest : gset string) :
  (fs ∖ {[name]}) ∖ rest = fs ∖ ({[name]} ∪ rest).
Proof.
  apply set_eq. intros x.
  rewrite !elem_of_difference, elem_of_union, elem_of_singleton. tauto.
Qed.

Lemma transcribe_chunks_run {A} (space : A)
    (results : nat -> Transcriber.Recognition) (count i : nat)
    (st : Transcriber.Work) :
  (forall j, (i <= j < i + count)%nat ->
     match results j with
     | Transcriber.ExportFails _ | Transcriber.RecognitionFails _ => False
     | _ => True
     end) ->
  Transcriber.transcribe_chunks space results i count st =
    (inr tt,
     Transcriber.mkWork
       (Transcriber.full_text st ++ Transcriber.gathered space results i count)
       (Transcriber.files st
          ∖ list_to_set (map Transcriber.chunk_file (seq i count)))).
Proof.
  revert i st. induction count as [|count IH]; intros i st Hok.
  - cbn. rewrite app_nil_r, difference_empty_L. destruct st; reflexivity.
  - cbn [Transcriber.transcribe_chunks Transcriber.gathered seq map
         list_to_set].
    specialize (Hok i ltac:(lia)) as Hi.
    unfold bind at 1.
    assert (Hstep : Transcriber.transcribe_chunk space i (results i) st =
              (inr tt,
               Transcriber.mkWork
                 (Transcriber.full_text st ++
                    match results i with
                    | Transcriber.Recognized text => text ++ [space]
                    | _ => []
                    end)
                 (Transcriber.files st ∖ {[Transcriber.chunk_file i]}))).
    { unfold Transcriber.transcribe_chunk. run_monad.
      destruct (results i); try contradiction;
        unfold Transcriber.upd_files, Transcriber.add_text; cbn;
        rewrite chunk_file_removed, ?app_nil_r; reflexivity. }
    rewrite Hstep, IH by (intros j Hj; apply Hok; lia).
    cbn [Transcriber.full_text Transcriber.files].
    rewrite <- app_assoc, chunk_files_removed. reflexivity.
Qed.

(** X19. When the recogniser is loaded, the extension known, the file
    loaded and the chunk length positive, and no chunk raises, [process]
    returns the texts of the recognised chunks in order, separated by
    blanks, stripped; chunks Google cannot understand or cannot be asked
    about are skipped without ending the run.  Every chunk file
    [chunk_<i>.wav] is removed again, and so is any file that had that
    name before. *)
Theorem process_gathers_recognised_chunks {A} (is_space : A -> bool)
    (space : A) (self : Transcriber.AudioTranscriber) (file_path : string)
    (n : Z) (results : nat -> Transcriber.Recognition)
    (files0 : gset string) (fmt : Transcriber.AudioFormat) :
  is_Some (Transcriber.recognizer self) ->
  Transcriber.audio_format (Transcriber.extension file_path) = inr fmt ->
  (0 < Transcriber.chunk_length_ms self)%Z ->
  let count :=
    Z.to_nat ((n + Transcriber.chunk_length_ms self - 1)
              / Transcriber.chunk_length_ms self) in
  Transcriber.no_failure results count ->
  Transcriber.process is_space space self file_path (inr n) results files0 =
    (inr (Text.strip is_space (Transcriber.gathered space results 0 count)),
     files0 ∖ Transcriber.chunk_files count).
Proof.
  intros [r Hr] Hfmt HL count Hok.
  unfold Transcriber.process. rewrite Hr, Hfmt.
  destruct (audio_chunks_lookup n _ 0 HL) as (chunks & -> & Hlen & _).
  rewrite Hlen. fold count.
  rewrite (transcribe_chunks_run space results count 0).
  - reflexivity.
  - intros j Hj. apply Hok. lia.
Qed.

(** X20. [process] raises [ValueError] for a chunk length of 0, and
    returns the empty text without exporting or recognising anything for
    an audio of length 0 and for a negative chunk length; in these cases,
    and when the extension is unknown, no file is created or removed, and
    [process_audio] gives the caller the empty transcription. *)
Theorem process_edge_cases {A} (is_space : A -> bool) (space : A)
    (self : Transcriber.AudioTranscriber) (file_path : string)
    (loaded : Exc Z) (results : nat -> Transcriber.Recognition)
    (files0 : gset string) :
  is_Some (Transcriber.recognizer self) ->
  (forall e,
     Transcriber.audio_format (Transcriber.extension file_path) = inl e ->
     Transcriber.process is_space space self file_path loaded results files0
       = (inl ValueError, files0) /\
     Transcriber.process_audio is_space space self file_path loaded results
       files0 = ([], files0)) /\
  (forall fmt n,
     Transcriber.audio_format (Transcriber.extension file_path) = inr fmt ->
     loaded = inr n ->
     (Transcriber.chunk_length_ms self = 0%Z ->
      Transcriber.process is_space space self file_path loaded results files0
        = (inl ValueError, files0)) /\
     ((0 <= n)%Z ->
      (Transcriber.chunk_length_ms self < 0)%Z \/
      (n = 0%Z /\ Transcriber.chunk_length_ms self <> 0%Z) ->
      Transcriber.process is_space space self file_path loaded results files0
        = (inr [], files0))).
Proof.
  intros [r Hr]. split.
  - intros e He. unfold Transcriber.process_audio, Transcriber.process.
    rewrite Hr, He.
    assert (e = ValueError) as ->.
    { unfold Transcriber.audio_format in He.
      repeat (match type of He with
              | context [if ?c then _ else _] => destruct c
              end; try discriminate).
      now injection He. }
    split; reflexivity.
  - intros fmt n Hfmt ->. unfold Transcriber.process.
    rewrite Hr, Hfmt. split.
    + intros ->. reflexivity.
    + intros Hn Hcase.
      unfold Transcriber.audio_chunks, Transcriber.py_range0.
      destruct (Z.eqb_spec (Transcriber.chunk_length_ms self) 0) as [H0|H0];
        [lia|].
      set (L := Transcriber.chunk_length_ms self) in *.
      assert (Hcount : Z.to_nat (if (0 <? L)%Z then (n + L - 1) / L
                                 else (- n + - L - 1) / - L) = 0%nat).
      { destruct (Z.ltb_spec 0 L) as [Hpos|Hneg].
        - assert (n = 0)%Z as -> by lia.
          rewrite Z.div_small by lia. reflexivity.
        - assert ((- n + - L - 1) / - L <= 0)%Z; [|lia].
          assert ((- n + - L - 1) / - L < 1)%Z; [|lia].
          apply Z.div_lt_upper_bound; lia. }
      rewrite Hcount. reflexivity.
Qed.

Lemma example_results_do_not_fail : Transcriber.no_failure example_results 3.
Proof.
  intros i Hi. destruct i as [|[|[|i]]]; cbn; auto.
Qed.

Lemma process_gathers_recognised_chunks_witness :
  Transcriber.no_failure example_results 3 /\
  Transcriber.process blank (Ascii.ascii_of_nat 32) example_transcriber
    "/tmp/seg.wav" (inr 150%Z) example_results {["chunk_1.wav"; "notes.txt"]} =
    (inr (String.list_ascii_of_string "what is here"),
     {["chunk_1.wav"; "notes.txt"]} ∖ Transcriber.chunk_files 3).
Proof.
  split; [exact example_results_do_not_fail|].
  exact (process_gathers_recognised_chunks blank (Ascii.ascii_of_nat 32)
           example_transcriber "/tmp/seg.wav" 150%Z example_results
           {["chunk_1.wav"; "notes.txt"]} Transcriber.Wav
           (ex_intro _ Transcriber.RecognizerObject eq_refl) eq_refl eq_refl
           example_results_do_not_fail).
Defined.

Lemma process_edge_cases_witness :
  Transcriber.process_audio blank (Ascii.ascii_of_nat 32) example_transcriber
    "notes.txt" (inr 150%Z) example_results ∅ = ([], ∅) /\
  Transcriber.process blank (Ascii.ascii_of_nat 32) example_transcriber
    "/tmp/seg.wav" (inr 0%Z) example_results ∅ = (inr [], ∅).
Proof.
  destruct (process_edge_cases blank (Ascii.ascii_of_nat 32)
              example_transcriber "notes.txt" (inr 150%Z) example_results ∅
              (ex_intro _ Transcriber.RecognizerObject eq_refl)) as [Hext _].
  destruct (process_edge_cases blank (Ascii.ascii_of_nat 32)
              example_transcriber "/tmp/seg.wav" (inr 0%Z) example_results ∅
              (ex_intro _ Transcriber.RecognizerObject eq_refl)) as [_ Hlen].
  split.
  - apply (Hext ValueError). reflexivity.
  - apply (Hlen Transcriber.Wav 0%Z eq_refl eq_refl); [lia|].
    right. split; [reflexivity | discriminate].
Defined.

(** ** Counting words *)

Lemma findall_words_from_spec {A} (is_word : A -> bool) (s cur : list A) :
  forallb is_word cur = true ->
  concat (Text.findall_words_from is_word cur s)
    = rev cur ++ List.filter is_word s /\
  Forall (fun w => w <> [] /\ forallb is_word w = true)
    (Text.findall_words_from is_word cur s).
Proof.
  revert cur. induction s as [|c rest IH]; intros cur Hcur.
  - cbn. destruct cur as [|d cur]; cbn.
    + split; [reflexivity | constructor].
    + rewrite !app_nil_r. split; [reflexivity|].
      constructor; [|constructor]. split.
      * intros H. apply (f_equal (@length A)) in H.
        rewrite length_app in H. cbn in H. lia.
      * rewrite forallb_forall in *. intros x Hx. apply Hcur.
        apply in_rev. exact Hx.
  - cbn [Text.findall_words_from List.filter].
    destruct (is_word c) eqn:Hc.
    + destruct (IH (c :: cur)) as [Hcat Hall]; [cbn; now rewrite Hc|].
      split; [|exact Hall].
      rewrite Hcat. cbn. now rewrite <- app_assoc.
    + destruct (IH []) as [Hcat Hall]; [reflexivity|].
      rewrite concat_app, Hcat. cbn [rev app].
      destruct cur as [|d cur]; cbn [Text.close_run concat app].
      * split; [reflexivity | exact Hall].
      * rewrite app_nil_r. split; [reflexivity|].
        constructor; [|exact Hall]. split.
        -- intros H. apply (f_equal (@length A)) in H.
           cbn in H. rewrite length_app in H. cbn in H. lia.
        -- rewrite forallb_forall in *. intros x Hx. apply Hcur.
           apply in_rev. exact Hx.
Qed.

(** X16. The words counted for a frame ([re.findall] with [\w+]) are
    non-empty runs of word characters which, put together, are exactly
    the word characters of the text in order; so a text has no word
    precisely when it has no word character. *)
Theorem findall_words_are_the_word_characters {A} (is_word : A -> bool)
    (s : list A) :
  concat (Text.findall_words is_word s) = List.filter is_word s /\
  Forall (fun w => w <> [] /\ forallb is_word w = true)
    (Text.findall_words is_word s) /\
  (length (Text.findall_words is_word s) = 0%nat <->
   List.filter is_word s = []).
Proof.
  destruct (findall_words_from_spec is_word s [] eq_refl) as [Hcat Hall].
  unfold Text.findall_words. split; [exact Hcat|]. split; [exact Hall|].
  cbn in Hcat. rewrite <- Hcat. split.
  - intros H. destruct (Text.findall_words_from is_word [] s);
      [reflexivity | discriminate].
  - intros H.
    destruct (Text.findall_words_from is_word [] s) as [|w ws];
      [reflexivity|].
    apply Forall_cons in Hall as [[Hne _] _].
    cbn in H. destruct w; [congruence | discriminate].
Qed.
